(** * Certificate chain verification (src/x509/verify.ts)

    A shallow embedding of [verifyCertificateChain] and of the private
    methods of [CertificateChainVerifier], together with the properties of
    the chain builder and of the path validator. *)

From Stdlib Require Import String.
From Stdlib.Strings Require Byte.
From Stdlib Require Import List Bool Arith Lia ZArith.
Import ListNotations.

Local Open Scope string_scope.
Local Open Scope nat_scope.
Local Open Scope list_scope.

Set Implicit Arguments.

(** ** Buffers and dates *)

(** A Node [Buffer] is a sequence of bytes; [Buffer.equals] compares the
    contents. *)
Definition Buffer := list Byte.byte.

Fixpoint Buffer_equals (a b : Buffer) : bool :=
  match a, b with
  | [], [] => true
  | x :: a', y :: b' => Byte.eqb x y && Buffer_equals a' b'
  | _, _ => false
  end.

(** A [Date] is its number of milliseconds since the epoch. *)
Definition Date := Z.

(** ** Outcomes of a call

    A call returns a value, throws, or (for the recursive path search, which
    the source does not bound) exhausts the fuel given to the model. *)

Inductive thrown : Type :=
| VerificationError (message : string)
| CertificateException (message : string)
| TypeError (message : string).

Inductive outcome (A : Type) : Type :=
| Return (a : A)
| Throw (e : thrown)
| OutOfFuel.

Arguments Return {A} a.
Arguments Throw {A} e.
Arguments OutOfFuel {A}.

Definition bind {A B : Type} (m : outcome A) (k : A -> outcome B) : outcome B :=
  match m with
  | Return a => k a
  | Throw e => Throw e
  | OutOfFuel => OutOfFuel
  end.

Notation "x <- m ;; k" := (bind m (fun x => k))
  (at level 61, m at next level, right associativity).
Notation "m ;;; k" := (bind m (fun _ => k))
  (at level 61, right associativity).

(** The result of a call into the certificate abstraction that may raise. *)
Inductive raises (A : Type) : Type :=
| Returns (a : A)
| Raises (message : string).

Arguments Returns {A} a.
Arguments Raises {A} message.

(** ** The certificate abstraction *)

Record x509AuthorityKeyIDExtension : Type :=
  { aki_keyIdentifier : option Buffer }.

Record x509SubjectKeyIDExtension : Type :=
  { ski_keyIdentifier : Buffer }.

(** Modelled from the spec: the class [x509Certificate] of src/x509/cert.ts,
    which verify.ts imports and only queries.  A value of type [cert] is a
    certificate object; Leibniz equality on [cert] is object identity (the
    [===] behind [Array.prototype.includes]), [equals] is the structural
    identity of the spec, and [cert_verify c None] is the self-check
    [c.verify()] while [cert_verify c (Some i)] is [c.verify(i)]. *)
Class x509Certificate (cert : Type) : Type :=
  { same_object : forall a b : cert, {a = b} + {a <> b};
    subject : cert -> Buffer;
    issuer : cert -> Buffer;
    isCA : cert -> bool;
    validForDate : cert -> Date -> bool;
    extAuthorityKeyID : cert -> option x509AuthorityKeyIDExtension;
    extSubjectKeyID : cert -> option x509SubjectKeyIDExtension;
    equals : cert -> cert -> bool;
    cert_verify : cert -> option cert -> raises bool }.

(** Structural identity is an equivalence, and structurally identical
    certificates answer every query alike. *)
Class x509Structural {cert : Type} (X : x509Certificate cert) : Prop :=
  { equals_refl : forall a, equals a a = true;
    equals_sym : forall a b, equals a b = true -> equals b a = true;
    equals_trans : forall a b c,
        equals a b = true -> equals b c = true -> equals a c = true;
    equals_subject : forall a b, equals a b = true -> subject a = subject b;
    equals_issuer : forall a b, equals a b = true -> issuer a = issuer b;
    equals_isCA : forall a b, equals a b = true -> isCA a = isCA b;
    equals_validForDate : forall a b d,
        equals a b = true -> validForDate a d = validForDate b d;
    equals_verify_self : forall a b,
        equals a b = true -> cert_verify a None = cert_verify b None }.

Section Verifier.

Variable cert : Type.
Context {X : x509Certificate cert}.

(** [array.includes(c)] on an array of certificate objects. *)
Definition includes (l : list cert) (c : cert) : bool :=
  existsb (fun x => if same_object x c then true else false) l.

(** ** dedupeCertificates *)

(** The inner loop at index [i]: every later element that [equals] the
    [i]-th one is spliced out. *)
Fixpoint spliceEquals (x : cert) (rest : list cert) : list cert :=
  match rest with
  | [] => []
  | y :: rest' =>
      if equals x y then spliceEquals x rest' else y :: spliceEquals x rest'
  end.

(** The outer loop: [n] bounds the number of iterations still possible
    (the array never grows). *)
Fixpoint dedupeLoop (n : nat) (l : list cert) : list cert :=
  match n, l with
  | S n', x :: rest => x :: dedupeLoop n' (spliceEquals x rest)
  | _, _ => []
  end.

Definition dedupeCertificates (certs : list cert) : list cert :=
  dedupeLoop (length certs) certs.

(** ** CertificateChainVerifier *)

Record VerifyCertificateChainOptions : Type :=
  { trustedCerts : list cert;
    certs : list cert;
    validAt : option Date }.

Record CertificateChainVerifier : Type :=
  { this_certs : list cert;
    this_trustedCerts : list cert;
    localCerts : list cert;
    this_validAt : Date }.

(** [now] is the value of [new Date()] at the time of the call. *)
Definition constructor (now : Date) (opts : VerifyCertificateChainOptions)
  : CertificateChainVerifier :=
  {| this_certs := certs opts;
     this_trustedCerts := trustedCerts opts;
     localCerts := dedupeCertificates (trustedCerts opts ++ certs opts);
     this_validAt := match validAt opts with Some d => d | None => now end |}.

Section Methods.

Variable this : CertificateChainVerifier.

(** The key identifier looked for, when the certificate has an authority
    key identifier extension. *)
Definition keyIdentifierOf (certificate : cert) : option Buffer :=
  match extAuthorityKeyID certificate with
  | Some ext => aki_keyIdentifier ext
  | None => None
  end.

(** The body of the [forEach] callback: does [possibleIssuer] get pushed
    onto [issuers]? *)
Definition isPossibleIssuer (keyIdentifier : option Buffer)
           (certificate possibleIssuer : cert) : bool :=
  match keyIdentifier, extSubjectKeyID possibleIssuer with
  | Some kid, Some ski => Buffer_equals (ski_keyIdentifier ski) kid
  | _, _ => Buffer_equals (subject possibleIssuer) (issuer certificate)
  end.

Definition possibleIssuers (certificate : cert) : list cert :=
  filter (isPossibleIssuer (keyIdentifierOf certificate) certificate)
         (localCerts this).

(** The callback of the final [filter]: an exception of [verify] is caught
    and counts as [false]. *)
Definition verifiedBy (certificate candidate : cert) : bool :=
  match cert_verify certificate (Some candidate) with
  | Returns b => b
  | Raises _ => false
  end.

Definition findIssuer (certificate : cert) : outcome (list cert) :=
  let lookup := Return (filter (verifiedBy certificate)
                               (possibleIssuers certificate)) in
  if Buffer_equals (subject certificate) (issuer certificate) then
    match cert_verify certificate None with
    | Raises m => Throw (CertificateException m)
    | Returns true => Return [certificate]
    | Returns false => lookup
    end
  else lookup.

(** The [for] loop of [buildPaths] over the issuers, [rec] being the
    recursive call. *)
Fixpoint forIssuers (rec : cert -> outcome (list (list cert)))
         (certificate : cert) (issuers : list cert) (paths : list (list cert))
  : outcome (list (list cert)) :=
  match issuers with
  | [] => Return paths
  | issuer :: issuers' =>
      if equals issuer certificate then
        forIssuers rec certificate issuers' (paths ++ [[certificate]])
      else
        subPaths <- rec issuer ;;
        forIssuers rec certificate issuers'
                   (paths ++ map (fun subPath => issuer :: subPath) subPaths)
  end.

Fixpoint buildPaths (fuel : nat) (certificate : cert)
  : outcome (list (list cert)) :=
  match fuel with
  | O => OutOfFuel
  | S fuel' =>
      issuers <- findIssuer certificate ;;
      match issuers with
      | [] => Throw (VerificationError "No valid certificate path found")
      | _ :: _ => forIssuers (buildPaths fuel') certificate issuers []
      end
  end.

(** [paths.reduce((prev, curr) => prev.length < curr.length ? prev : curr)]
    on a non-empty array. *)
Definition shorter (prev curr : list cert) : list cert :=
  if length prev <? length curr then prev else curr.

Definition containsTrusted (path : list cert) : bool :=
  existsb (fun c => includes (this_trustedCerts this) c) path.

Definition sort (fuel : nat) : outcome (list cert) :=
  match nth_error (localCerts this) (length (localCerts this) - 1) with
  | None => Throw (TypeError "Cannot read properties of undefined")
  | Some leafCert =>
      paths <- buildPaths fuel leafCert ;;
      match filter containsTrusted paths with
      | [] => Throw (VerificationError "No trusted certificate path found")
      | first :: others =>
          Return (leafCert :: fold_left shorter others first)
      end
  end.

(** The descending loop over the adjacent pairs, [i] running from [n - 1]
    down to [0] when called with [n]. *)
Fixpoint nameChainingLoop (path : list cert) (n : nat) : bool :=
  match n with
  | O => true
  | S i =>
      match nth_error path i, nth_error path (S i) with
      | Some a, Some b =>
          if Buffer_equals (issuer a) (subject b)
          then nameChainingLoop path i else false
      | _, _ => false
      end
  end.

Definition checkPath (path : list cert) : outcome unit :=
  if length path <? 2 then
    Throw (VerificationError
             "Certificate chain must contain at least two certificates")
  else if negb (forallb (fun c => validForDate c (this_validAt this)) path) then
    Throw (VerificationError
             "Certificate is not valid or expired at the specified date")
  else if negb (forallb isCA (skipn 1 path)) then
    Throw (VerificationError "Intermediate certificate is not a CA")
  else if negb (nameChainingLoop path (length path - 1)) then
    Throw (VerificationError "Incorrect certificate name chaining")
  else Return tt.

Definition verify (fuel : nat) : outcome (list cert) :=
  match this_certs this with
  | [] => Throw (VerificationError "No certificates provided")
  | _ :: _ =>
      certificatePath <- sort fuel ;;
      checkPath certificatePath ;;;
      Return certificatePath
  end.

(** An issuer link, as [buildPaths] follows it: [b] was found as an
    issuer of [a], or the path stops at [a] because an issuer found for
    [a] equals it. *)
Definition issuerLink (a b : cert) : Prop :=
  exists issuers i,
    findIssuer a = Return issuers /\ In i issuers /\
    (i = b \/ (b = a /\ equals i a = true)).

End Methods.

Definition verifyCertificateChain (now : Date) (fuel : nat)
           (opts : VerifyCertificateChainOptions) : outcome (list cert) :=
  verify (constructor now opts) fuel.

End Verifier.

Arguments shorter {cert} prev curr.

(** ** A small certificate authority for the examples

    Certificate objects with the fields the verifier queries.  [oid] is the
    identity of the object, [der] the parsed content; two objects parsed from
    the same bytes differ in [oid] only. *)
Module Fixture.

Record content : Type :=
  { c_subject : string;
    c_issuer : string;
    c_isCA : bool;
    c_notBefore : Z;
    c_notAfter : Z;
    c_authorityKeyID : option (option string);
    c_subjectKeyID : option string;
    c_publicKey : string;      (* the key of the subject; empty when malformed *)
    c_signedWith : string }.   (* the key the signature was made with *)

Record object : Type := { oid : nat; der : content }.

Definition option_dec {A : Type} (dec : forall a b : A, {a = b} + {a <> b})
  : forall a b : option A, {a = b} + {a <> b}.
Proof. decide equality. Defined.

Definition keyID_dec := option_dec string_dec.
Definition authorityKeyID_dec := option_dec keyID_dec.

Definition content_dec : forall a b : content, {a = b} + {a <> b}.
Proof.
  decide equality;
    auto using string_dec, Z.eq_dec, bool_dec, keyID_dec, authorityKeyID_dec.
Defined.

Definition object_dec : forall a b : object, {a = b} + {a <> b}.
Proof. decide equality; auto using content_dec, Nat.eq_dec. Defined.

(** [crypto.createPublicKey] throws on a malformed key; otherwise the
    signature verifies when it was made with that key. *)
Definition signatureCheck (c : object) (i : option object) : raises bool :=
  let publicKey := match i with
                   | Some i' => c_publicKey (der i')
                   | None => c_publicKey (der c)
                   end in
  if string_dec publicKey "" then Raises "Invalid public key"
  else Returns (if string_dec (c_signedWith (der c)) publicKey
                then true else false).

#[global] Instance certificate : x509Certificate object :=
  {| same_object := object_dec;
     subject := fun c => list_byte_of_string (c_subject (der c));
     issuer := fun c => list_byte_of_string (c_issuer (der c));
     isCA := fun c => c_isCA (der c);
     validForDate := fun c d =>
       (c_notBefore (der c) <=? d)%Z && (d <=? c_notAfter (der c))%Z;
     extAuthorityKeyID := fun c =>
       option_map (fun k => {| aki_keyIdentifier :=
                                 option_map list_byte_of_string k |})
                  (c_authorityKeyID (der c));
     extSubjectKeyID := fun c =>
       option_map (fun k => {| ski_keyIdentifier := list_byte_of_string k |})
                  (c_subjectKeyID (der c));
     equals := fun a b => if content_dec (der a) (der b) then true else false;
     cert_verify := signatureCheck |}.

Definition mkContent (subj iss : string) (ca : bool)
           (aki : option (option string)) (ski : option string)
           (key signedWith : string) : content :=
  {| c_subject := subj; c_issuer := iss; c_isCA := ca;
     c_notBefore := 1000; c_notAfter := 2000;
     c_authorityKeyID := aki; c_subjectKeyID := ski;
     c_publicKey := key; c_signedWith := signedWith |}.

(** A root, an intermediate issued by the root and a leaf issued by the
    intermediate, without key identifier extensions. *)
Definition rootDer := mkContent "CN=root" "CN=root" true None None "kR" "kR".
Definition intDer := mkContent "CN=int" "CN=root" true None None "kI" "kR".
Definition leafDer := mkContent "CN=leaf" "CN=int" false None None "kL" "kI".

Definition root := {| oid := 1; der := rootDer |}.
Definition root' := {| oid := 11; der := rootDer |}.
Definition int := {| oid := 2; der := intDer |}.
Definition leaf := {| oid := 3; der := leafDer |}.

(** A second, unrelated self-signed root. *)
Definition otherRoot :=
  {| oid := 4;
     der := mkContent "CN=other" "CN=other" true None None "kO" "kO" |}.

(** A certificate with no issuer in any pool below. *)
Definition orphan :=
  {| oid := 5;
     der := mkContent "CN=orphan" "CN=nobody" true None None "kX" "kN" |}.

(** A second intermediate with the name and key of [int], self-issued. *)
Definition selfInt :=
  {| oid := 6;
     der := mkContent "CN=int" "CN=int" true None None "kI" "kI" |}.

(** A leaf that carries an authority key identifier, and an issuer of it
    without subject key identifier. *)
Definition leafAki :=
  {| oid := 7;
     der := mkContent "CN=leaf" "CN=int" false (Some (Some "id-int")) None
                      "kL" "kI" |}.

(** An issuer candidate by name whose subject key identifier differs. *)
Definition intSki :=
  {| oid := 8;
     der := mkContent "CN=int" "CN=root" true None (Some "id-other")
                      "kI" "kR" |}.

(** A self-issued certificate whose public key cannot be decoded. *)
Definition malformed :=
  {| oid := 9;
     der := mkContent "CN=bad" "CN=bad" true None None "" "kB" |}.

(** A certificate issued, by name, by [malformed]. *)
Definition issuedByMalformed :=
  {| oid := 10;
     der := mkContent "CN=victim" "CN=bad" false None None "kV" "kB" |}.

Definition options (trusted supplied : list object)
  : VerifyCertificateChainOptions object :=
  {| trustedCerts := trusted; certs := supplied; validAt := Some 1500%Z |}.

(** Two certificates that issue each other. *)
Definition crossA :=
  {| oid := 12;
     der := mkContent "CN=a" "CN=b" true None None "kA" "kB" |}.
Definition crossB :=
  {| oid := 13;
     der := mkContent "CN=b" "CN=a" true None None "kB" "kA" |}.

(** A third certificate with the name and key of [int], self-issued like
    [selfInt] but with other content. *)
Definition selfInt2 :=
  {| oid := 15;
     der := mkContent "CN=int" "CN=int" true None (Some "id-self2")
                      "kI" "kI" |}.

(** An intermediate with the name and key of [int] whose own issuer is in
    no pool. *)
Definition deadInt :=
  {| oid := 14;
     der := mkContent "CN=int" "CN=nobody" true None None "kI" "kN" |}.

End Fixture.


(** * Properties *)

Lemma Buffer_equals_eq (a b : Buffer) : Buffer_equals a b = true <-> a = b.
Proof.
  revert b; induction a as [|x a IH]; intros [|y b]; simpl;
    try (split; (discriminate || reflexivity)).
  rewrite andb_true_iff, IH. split.
  - intros [Hxy ->]. now rewrite (Byte.byte_dec_bl _ _ Hxy).
  - intros [= -> ->]. split; [now apply Byte.byte_dec_lb | reflexivity].
Qed.

Lemma Buffer_equals_sym (a b : Buffer) : Buffer_equals a b = Buffer_equals b a.
Proof.
  destruct (Buffer_equals a b) eqn:E, (Buffer_equals b a) eqn:E'; trivial.
  - apply Buffer_equals_eq in E. subst.
    now rewrite (proj2 (Buffer_equals_eq b b) eq_refl) in E'.
  - apply Buffer_equals_eq in E'. subst.
    now rewrite (proj2 (Buffer_equals_eq a a) eq_refl) in E.
Qed.

Lemma bind_Return {A B : Type} (m : outcome A) (k : A -> outcome B) (b : B) :
  bind m k = Return b -> exists a, m = Return a /\ k a = Return b.
Proof. destruct m; simpl; try discriminate. eauto. Qed.

Section Facts.

Context {cert : Type} `{X : x509Certificate cert}.

Lemma includes_In (l : list cert) (c : cert) : includes l c = true <-> In c l.
Proof.
  unfold includes. rewrite existsb_exists. split.
  - intros (x & Hx & E). destruct (same_object x c); congruence.
  - intros H. exists c. split; trivial. now destruct (same_object c c).
Qed.

(** ** The certificate set normalizer *)

Lemma spliceEquals_filter (x : cert) (l : list cert) :
  spliceEquals x l = filter (fun y => negb (equals x y)) l.
Proof.
  induction l as [|y l IH]; simpl; trivial.
  destruct (equals x y); simpl; now rewrite IH.
Qed.

Lemma spliceEquals_length (x : cert) (l : list cert) :
  length (spliceEquals x l) <= length l.
Proof.
  induction l as [|y l IH]; simpl; trivial.
  destruct (equals x y); simpl; lia.
Qed.

Lemma spliceEquals_In (x y : cert) (l : list cert) :
  In y (spliceEquals x l) <-> In y l /\ equals x y = false.
Proof.
  rewrite spliceEquals_filter, filter_In, negb_true_iff. tauto.
Qed.

Lemma spliceEquals_app (x : cert) (l1 l2 : list cert) :
  spliceEquals x (l1 ++ l2) = spliceEquals x l1 ++ spliceEquals x l2.
Proof. rewrite !spliceEquals_filter. apply filter_app. Qed.

(** The bound of the outer loop is never reached early. *)
Lemma dedupeLoop_bound (n m : nat) (l : list cert) :
  length l <= n -> length l <= m -> dedupeLoop n l = dedupeLoop m l.
Proof.
  revert m l; induction n as [|n IH]; intros [|m] [|x l]; simpl;
    trivial; try lia.
  intros Hn Hm. f_equal. pose proof (spliceEquals_length x l).
  apply IH; lia.
Qed.

Lemma dedupeCertificates_nil : dedupeCertificates (@nil cert) = [].
Proof. reflexivity. Qed.

Lemma dedupeCertificates_cons (x : cert) (l : list cert) :
  dedupeCertificates (x :: l) = x :: dedupeCertificates (spliceEquals x l).
Proof.
  unfold dedupeCertificates. simpl. f_equal.
  apply dedupeLoop_bound; auto using spliceEquals_length.
Qed.

(** Induction along the iterations of the outer loop. *)
Lemma dedupe_ind (P : list cert -> Prop) :
  P [] ->
  (forall x l, P (spliceEquals x l) -> P (x :: l)) ->
  forall l, P l.
Proof.
  intros Hnil Hcons l.
  remember (length l) as n eqn:Hn.
  assert (Hle : length l <= n) by lia. clear Hn.
  revert l Hle. induction n as [|n IH]; intros [|x l] Hle; simpl in Hle;
    trivial; try lia.
  apply Hcons, IH. pose proof (spliceEquals_length x l). lia.
Qed.

Lemma dedupeCertificates_In (l : list cert) (c : cert) :
  In c (dedupeCertificates l) -> In c l.
Proof.
  revert c. induction l as [|x l IH] using dedupe_ind; intros c.
  - now rewrite dedupeCertificates_nil.
  - rewrite dedupeCertificates_cons. intros [->|H]; [now left|right].
    apply IH in H. now apply spliceEquals_In in H.
Qed.

Lemma dedupeCertificates_nonempty (l : list cert) :
  l <> [] -> dedupeCertificates l <> [].
Proof.
  destruct l as [|x l]; [congruence|].
  rewrite dedupeCertificates_cons. discriminate.
Qed.

(** A certificate that nothing before it equals stays last in the pool. *)
Lemma dedupeCertificates_last (l : list cert) (c : cert) :
  (forall y, In y l -> equals y c = false) ->
  dedupeCertificates (l ++ [c]) = dedupeCertificates l ++ [c].
Proof.
  induction l as [|x l IH] using dedupe_ind; intros Hne.
  - reflexivity.
  - cbn [app]. rewrite !dedupeCertificates_cons, spliceEquals_app.
    cbn [app spliceEquals].
    rewrite (Hne x) by now left. rewrite IH; trivial.
    intros y Hy. apply spliceEquals_In in Hy. apply Hne. now right.
Qed.

(** A certificate that equals an earlier one does not reach the pool. *)
Lemma dedupeCertificates_duplicate {Laws : x509Structural X}
      (l1 l2 : list cert) (d : cert) :
  (exists t, In t l1 /\ equals t d = true) ->
  dedupeCertificates (l1 ++ d :: l2) = dedupeCertificates (l1 ++ l2).
Proof.
  revert l2. induction l1 as [|x l1 IH] using dedupe_ind;
    intros l2 (t & Ht & Htd).
  - destruct Ht.
  - cbn [app]. rewrite !dedupeCertificates_cons, !spliceEquals_app.
    cbn [spliceEquals].
    destruct (equals x d) eqn:Exd; trivial.
    f_equal. apply IH. exists t. split; trivial.
    apply spliceEquals_In. destruct Ht as [->|Ht]; [congruence|].
    split; trivial.
    destruct (equals x t) eqn:Ext; trivial.
    rewrite (equals_trans _ _ _ Ext Htd) in Exd. discriminate.
Qed.

Lemma nth_error_last (l : list cert) (c : cert) :
  nth_error (l ++ [c]) (length (l ++ [c]) - 1) = Some c.
Proof.
  rewrite last_length. simpl. rewrite Nat.sub_0_r.
  rewrite nth_error_app2, Nat.sub_diag; trivial.
Qed.

(** ** The path builder *)

Section Builder.

Variable this : CertificateChainVerifier cert.

Lemma possibleIssuers_In (certificate p : cert) :
  In p (possibleIssuers this certificate) <->
  In p (localCerts this) /\
  isPossibleIssuer (keyIdentifierOf certificate) certificate p = true.
Proof. unfold possibleIssuers. apply filter_In. Qed.

(** Every issuer found is the certificate itself or a member of the pool. *)
Lemma findIssuer_In (certificate : cert) (issuers : list cert) :
  findIssuer this certificate = Return issuers ->
  forall i, In i issuers -> i = certificate \/ In i (localCerts this).
Proof.
  unfold findIssuer. intros H i Hi.
  assert (Hlookup : In i (filter (verifiedBy certificate)
                                 (possibleIssuers this certificate)) ->
                    In i (localCerts this)).
  { intros Hin. apply filter_In in Hin. destruct Hin as [Hin _].
    now apply possibleIssuers_In in Hin. }
  destruct (Buffer_equals (subject certificate) (issuer certificate)).
  - destruct (cert_verify certificate None) as [[|]|m]; try discriminate;
      injection H as <-.
    + destruct Hi as [<-|[]]. now left.
    + right. auto.
  - injection H as <-. right. auto.
Qed.

(** What one run of the loop over the issuers appends to [paths]. *)
Lemma forIssuers_Return (rec : cert -> outcome (list (list cert)))
      (certificate : cert) (issuers : list cert) (paths out : list (list cert)) :
  forIssuers rec certificate issuers paths = Return out ->
  exists added,
    out = paths ++ added /\
    Forall (fun p =>
              p = [certificate] \/
              exists i subPaths subPath,
                In i issuers /\ rec i = Return subPaths /\
                In subPath subPaths /\ p = i :: subPath) added.
Proof.
  revert paths. induction issuers as [|i issuers IH]; intros paths; simpl.
  - intros [= <-]. exists []. split; [now rewrite app_nil_r | constructor].
  - destruct (equals i certificate).
    + intros H. apply IH in H. destruct H as (added & -> & Hall).
      exists ([certificate] :: added). split; [now rewrite <- app_assoc|].
      constructor; [now left|].
      eapply Forall_impl; [|exact Hall]. simpl.
      intros p [->|(j & sub & sp & Hj & Hrec & Hsp & ->)]; [now left|right].
      exists j, sub, sp. auto.
    + intros H. apply bind_Return in H. destruct H as (subPaths & Hrec & H).
      apply IH in H. destruct H as (added & -> & Hall).
      exists (map (fun subPath => i :: subPath) subPaths ++ added).
      split; [now rewrite <- app_assoc|].
      apply Forall_app. split.
      * apply Forall_forall. intros p Hp. apply in_map_iff in Hp.
        destruct Hp as (sp & <- & Hsp). right. exists i, subPaths, sp. auto.
      * eapply Forall_impl; [|exact Hall]. simpl.
        intros p [->|(j & sub & sp & Hj & Hrec' & Hsp & ->)]; [now left|right].
        exists j, sub, sp. auto.
Qed.

Lemma buildPaths_Return (fuel : nat) (certificate : cert)
      (paths : list (list cert)) :
  buildPaths this fuel certificate = Return paths ->
  exists fuel' issuers,
    fuel = S fuel' /\
    findIssuer this certificate = Return issuers /\
    issuers <> [] /\
    forIssuers (buildPaths this fuel') certificate issuers [] = Return paths.
Proof.
  destruct fuel as [|fuel']; simpl; [discriminate|].
  intros H. apply bind_Return in H. destruct H as (issuers & Hf & H).
  exists fuel', issuers. destruct issuers; [discriminate|].
  repeat split; trivial. discriminate.
Qed.

(** Every path built holds at least one certificate. *)
Lemma buildPaths_nonempty (fuel : nat) (certificate : cert)
      (paths : list (list cert)) :
  buildPaths this fuel certificate = Return paths ->
  forall p, In p paths -> p <> [].
Proof.
  intros H p Hp. apply buildPaths_Return in H.
  destruct H as (fuel' & issuers & _ & _ & _ & H).
  apply forIssuers_Return in H. destruct H as (added & -> & Hall).
  rewrite Forall_forall in Hall. destruct (Hall p Hp) as [->|(i & _ & sp & _ & _ & _ & ->)];
    discriminate.
Qed.

(** Path building stays inside the pool. *)
Lemma buildPaths_localCerts (fuel : nat) :
  forall (certificate : cert) (paths : list (list cert)),
    In certificate (localCerts this) ->
    buildPaths this fuel certificate = Return paths ->
    forall p, In p paths -> forall c, In c p -> In c (localCerts this).
Proof.
  induction fuel as [|fuel IH]; intros certificate paths Hin H p Hp c Hc;
    [discriminate|].
  apply buildPaths_Return in H.
  destruct H as (fuel' & issuers & [= <-] & Hfind & _ & H).
  apply forIssuers_Return in H. destruct H as (added & -> & Hall).
  rewrite Forall_forall in Hall.
  destruct (Hall p Hp) as [->|(i & sub & sp & Hi & Hrec & Hsp & ->)].
  - destruct Hc as [<-|[]]. trivial.
  - assert (Hipool : In i (localCerts this)).
    { destruct (findIssuer_In _ Hfind _ Hi) as [->|]; trivial. }
    destruct Hc as [<-|Hc]; trivial.
    exact (IH i sub Hipool Hrec sp Hsp c Hc).
Qed.

(** More fuel does not change a call that completed. *)
Lemma forIssuers_ext (rec rec' : cert -> outcome (list (list cert)))
      (certificate : cert) (issuers : list cert) :
  (forall i, rec i <> OutOfFuel -> rec' i = rec i) ->
  forall paths,
    forIssuers rec certificate issuers paths <> OutOfFuel ->
    forIssuers rec' certificate issuers paths =
    forIssuers rec certificate issuers paths.
Proof.
  intros Hrec. induction issuers as [|i issuers IH]; intros paths; simpl;
    trivial.
  destruct (equals i certificate); [apply IH|].
  destruct (rec i) as [sub|e|] eqn:E; simpl.
  - rewrite Hrec, E by congruence. simpl. apply IH.
  - rewrite Hrec, E by congruence. reflexivity.
  - congruence.
Qed.

Lemma buildPaths_fuel (fuel : nat) :
  forall certificate,
    buildPaths this fuel certificate <> OutOfFuel ->
    buildPaths this (S fuel) certificate = buildPaths this fuel certificate.
Proof.
  induction fuel as [|fuel IH]; intros certificate H; [now elim H|].
  change (buildPaths this (S (S fuel)) certificate) with
    (issuers <- findIssuer this certificate ;;
     match issuers with
     | [] => Throw (VerificationError "No valid certificate path found")
     | _ :: _ => forIssuers (buildPaths this (S fuel)) certificate issuers []
     end).
  change (buildPaths this (S fuel) certificate) with
    (issuers <- findIssuer this certificate ;;
     match issuers with
     | [] => Throw (VerificationError "No valid certificate path found")
     | _ :: _ => forIssuers (buildPaths this fuel) certificate issuers []
     end) in H |- *.
  destruct (findIssuer this certificate) as [[|i issuers]|e|]; cbn [bind] in *;
    trivial.
  apply forIssuers_ext; trivial.
Qed.

End Builder.

(** ** Selection, validation and the whole call *)

Section Selection.

Variable this : CertificateChainVerifier cert.

(** [reduce] keeps the last of the shortest paths. *)
Lemma reduce_shorter (others : list (list cert)) :
  forall first,
  exists before after,
    first :: others = before ++ fold_left shorter others first :: after /\
    Forall (fun q => length (fold_left shorter others first) <= length q)
           before /\
    Forall (fun q => length (fold_left shorter others first) < length q)
           after.
Proof.
  induction others as [|o others IH]; intros first; simpl.
  - exists [], []. repeat split; constructor.
  - destruct (IH (shorter first o)) as (before & after & Heq & Hb & Ha).
    remember (fold_left shorter others (shorter first o)) as p eqn:Hp.
    clear Hp IH. unfold shorter in Heq.
    destruct (length first <? length o) eqn:E.
    + apply Nat.ltb_lt in E. destruct before as [|b before]; simpl in Heq.
      * injection Heq as <- <-. exists [], (o :: others).
        repeat split; trivial. constructor; trivial.
      * injection Heq as <- ->. inversion Hb; subst.
        exists (first :: o :: before), after.
        repeat split; trivial. repeat constructor; trivial; lia.
    + apply Nat.ltb_ge in E. exists (first :: before), after. simpl.
      rewrite Heq. repeat split; trivial. constructor; trivial.
      destruct before as [|b before]; simpl in Heq.
      * injection Heq as <- _. lia.
      * injection Heq as <- _. inversion Hb; subst. lia.
Qed.

Lemma sort_Return (fuel : nat) (chain : list cert) :
  sort this fuel = Return chain ->
  exists leafCert paths first others,
    nth_error (localCerts this) (length (localCerts this) - 1)
      = Some leafCert /\
    buildPaths this fuel leafCert = Return paths /\
    filter (containsTrusted this) paths = first :: others /\
    chain = leafCert :: fold_left shorter others first.
Proof.
  unfold sort.
  destruct (nth_error (localCerts this) (length (localCerts this) - 1))
    as [leafCert|]; [|discriminate].
  intros H. apply bind_Return in H. destruct H as (paths & Hb & H).
  destruct (filter (containsTrusted this) paths) as [|first others] eqn:E;
    [discriminate|].
  injection H as <-. exists leafCert, paths, first, others. auto.
Qed.

(** The chain handed to the validator always has two certificates or
    more: the length rule of [checkPath] cannot fire after [sort]. *)
Lemma sort_length (fuel : nat) (chain : list cert) :
  sort this fuel = Return chain -> 2 <= length chain.
Proof.
  intros H. apply sort_Return in H.
  destruct H as (leafCert & paths & first & others & _ & Hb & Hf & ->).
  destruct (reduce_shorter others first) as (before & after & Heq & _).
  assert (Hin : In (fold_left shorter others first) paths).
  { eapply proj1. apply filter_In with (f := containsTrusted this).
    rewrite Hf, Heq. apply in_elt. }
  pose proof (@buildPaths_nonempty this _ _ _ Hb _ Hin) as Hne.
  destruct (fold_left shorter others first); [congruence|]. simpl. lia.
Qed.

Lemma verify_Return (fuel : nat) (chain : list cert) :
  verify this fuel = Return chain ->
  this_certs this <> [] /\
  sort this fuel = Return chain /\
  checkPath this chain = Return tt.
Proof.
  unfold verify. destruct (this_certs this); [discriminate|].
  intros H. apply bind_Return in H. destruct H as (path & Hs & H).
  apply bind_Return in H. destruct H as ([] & Hc & [= <-]).
  repeat split; trivial. discriminate.
Qed.

(** The descending loop checks every adjacent pair below its start. *)
Lemma nameChainingLoop_true (path : list cert) (n : nat) :
  nameChainingLoop path n = true <->
  forall i, i < n ->
    exists a b, nth_error path i = Some a /\ nth_error path (S i) = Some b /\
                issuer a = subject b.
Proof.
  induction n as [|n IH]; cbn [nameChainingLoop].
  - split; trivial. intros _ i Hi. lia.
  - destruct (nth_error path n) as [a|] eqn:Ea.
    2:{ split; [discriminate|]. intros H.
        destruct (H n) as (a & b & Ha & _); [lia|congruence]. }
    destruct (nth_error path (S n)) as [b|] eqn:Eb.
    2:{ split; [discriminate|]. intros H.
        destruct (H n) as (a' & b & _ & Hb & _); [lia|congruence]. }
    destruct (Buffer_equals (issuer a) (subject b)) eqn:E.
    + apply Buffer_equals_eq in E. rewrite IH. split.
      * intros H i Hi. destruct (Nat.eq_dec i n) as [->|]; [eauto|].
        apply H. lia.
      * intros H i Hi. apply H. lia.
    + split; [discriminate|]. intros H.
      destruct (H n) as (a' & b' & Ha & Hb & Hab); [lia|].
      assert (a' = a) by congruence. assert (b' = b) by congruence. subst.
      apply Buffer_equals_eq in Hab. congruence.
Qed.

End Selection.

(** The verifier reads the supplied certificates only to test whether
    there are any; everything else goes through the pool. *)
Lemma verify_certs_irrelevant (certs1 certs2 trusted pool : list cert)
      (date : Date) (fuel : nat) :
  certs1 <> [] -> certs2 <> [] ->
  verify {| this_certs := certs1; this_trustedCerts := trusted;
            localCerts := pool; this_validAt := date |} fuel =
  verify {| this_certs := certs2; this_trustedCerts := trusted;
            localCerts := pool; this_validAt := date |} fuel.
Proof.
  destruct certs1, certs2; try congruence. intros _ _. reflexivity.
Qed.

End Facts.

(** ** The example authority is structural *)

Lemma fixture_equals (a b : Fixture.object) :
  equals a b = true <-> Fixture.der a = Fixture.der b.
Proof.
  simpl. destruct (Fixture.content_dec (Fixture.der a) (Fixture.der b));
    split; intros H; trivial; (discriminate || contradiction).
Qed.

#[global] Instance fixture_structural : x509Structural Fixture.certificate.
Proof.
  constructor; intros *; rewrite ?fixture_equals; try congruence;
    intros E; simpl; unfold Fixture.signatureCheck; now rewrite E.
Qed.

(** * Properties of [verifyCertificateChain] *)

Section Chain.

Variable cert : Type.
Context {X : x509Certificate cert}.

(** C1 (amended).  A returned chain starts with the last certificate of the
    deduplicated pool, which is the last supplied certificate whenever no
    certificate before it (trusted or supplied) equals it, and at least one
    certificate after the first is one of the trusted certificates; the
    last certificate of the chain need not be trusted. *)
Theorem chain_endpoints (now : Date) (fuel : nat)
        (opts : VerifyCertificateChainOptions cert) (P : list cert) :
  verifyCertificateChain now fuel opts = Return P ->
  let pool := dedupeCertificates (trustedCerts opts ++ certs opts) in
  exists leafCert path,
    P = leafCert :: path /\
    nth_error pool (length pool - 1) = Some leafCert /\
    (forall supplied l,
        certs opts = supplied ++ [l] ->
        (forall y, In y (trustedCerts opts ++ supplied) ->
                   equals y l = false) ->
        leafCert = l) /\
    exists t, In t path /\ In t (trustedCerts opts).
Proof.
  intros H pool. apply verify_Return in H. destruct H as (_ & Hs & _).
  apply sort_Return in Hs.
  destruct Hs as (leafCert & paths & first & others & Hleaf & _ & Hf & ->).
  exists leafCert, (fold_left shorter others first).
  split; [reflexivity|]. split; [exact Hleaf|]. split.
  - intros supplied l Hc Hne. simpl in Hleaf. rewrite Hc, app_assoc in Hleaf.
    rewrite dedupeCertificates_last in Hleaf by exact Hne.
    rewrite nth_error_last in Hleaf. congruence.
  - destruct (reduce_shorter others first) as (before & after & Heq & _).
    assert (Hin : In (fold_left shorter others first)
                     (filter (containsTrusted (constructor now opts)) paths)).
    { rewrite Hf, Heq. apply in_elt. }
    apply filter_In in Hin. destruct Hin as [_ Ht].
    apply existsb_exists in Ht. destruct Ht as (t & Hin & Ht).
    apply includes_In in Ht. exists t. auto.
Qed.

(** C3 (amended).  For a certificate that carries an authority key
    identifier, a pool member that has a subject key identifier is a
    candidate issuer exactly when the two identifiers are equal, and a pool
    member without subject key identifier is a candidate exactly when its
    subject is the certificate's issuer: the comparison of names is
    suppressed per pool member, not for the invocation.  The issuers found
    are the candidates that verify the signature, unless the certificate is
    self-issued and verifies itself. *)
Theorem possibleIssuers_with_keyIdentifier
        (this : CertificateChainVerifier cert) (certificate : cert)
        (kid : Buffer) :
  keyIdentifierOf certificate = Some kid ->
  (forall p,
      In p (possibleIssuers this certificate) <->
      In p (localCerts this) /\
      match extSubjectKeyID p with
      | Some ski => ski_keyIdentifier ski = kid
      | None => subject p = issuer certificate
      end) /\
  (forall issuers,
      findIssuer this certificate = Return issuers ->
      (issuers = [certificate] /\
       subject certificate = issuer certificate /\
       cert_verify certificate None = Returns true) \/
      issuers = filter (verifiedBy certificate)
                       (possibleIssuers this certificate)).
Proof.
  intros Hkid. split.
  - intros p. rewrite possibleIssuers_In, Hkid. unfold isPossibleIssuer.
    destruct (extSubjectKeyID p); now rewrite Buffer_equals_eq.
  - intros issuers. unfold findIssuer.
    destruct (Buffer_equals (subject certificate) (issuer certificate)) eqn:E.
    + apply Buffer_equals_eq in E.
      destruct (cert_verify certificate None) as [[|]|m]; intros [= <-]; auto.
    + intros [= <-]. auto.
Qed.

(** C4 (amended).  When certificates are supplied, adding to them, at any
    place, a certificate structurally equal to one of the trusted
    certificates changes neither the pool nor the outcome. *)
Theorem duplicate_of_trusted_ignored {Laws : x509Structural X}
        (now : Date) (fuel : nat) (trusted before after : list cert)
        (d : cert) (date : option Date) :
  before ++ after <> [] ->
  (exists t, In t trusted /\ equals t d = true) ->
  verifyCertificateChain now fuel
    {| trustedCerts := trusted; certs := before ++ d :: after;
       validAt := date |} =
  verifyCertificateChain now fuel
    {| trustedCerts := trusted; certs := before ++ after; validAt := date |}.
Proof.
  intros Hne (t & Ht & Htd).
  unfold verifyCertificateChain, constructor. simpl.
  rewrite !app_assoc.
  rewrite dedupeCertificates_duplicate
    by (exists t; split; [apply in_or_app; now left | exact Htd]).
  apply verify_certs_irrelevant; trivial.
  destruct before; discriminate.
Qed.

(** A path passes the filter of [sort] exactly when one of its
    certificates is one of the trusted objects. *)
Lemma containsTrusted_true (this : CertificateChainVerifier cert)
      (path : list cert) :
  containsTrusted this path = true <->
  exists t, In t path /\ In t (this_trustedCerts this).
Proof.
  unfold containsTrusted. rewrite existsb_exists.
  split; intros (t & Hin & Ht); exists t; split; trivial;
    now apply includes_In.
Qed.

(** An element of a filtered list, located in the list that was filtered. *)
Lemma filter_split {A : Type} (f : A -> bool) (l l1 l2 : list A) (x : A) :
  filter f l = l1 ++ x :: l2 ->
  exists m1 m2,
    l = m1 ++ x :: m2 /\ filter f m1 = l1 /\ filter f m2 = l2.
Proof.
  revert l1. induction l as [|y l IH]; intros l1 H; simpl in H.
  - destruct l1; discriminate.
  - destruct (f y) eqn:E.
    + destruct l1 as [|z l1]; simpl in H.
      * injection H as -> Hl. exists [], l. auto.
      * injection H as -> Hl. destruct (IH _ Hl) as (m1 & m2 & -> & <- & <-).
        exists (z :: m1), m2. simpl. rewrite E. auto.
    + destruct (IH _ H) as (m1 & m2 & -> & <- & <-).
      exists (y :: m1), m2. simpl. rewrite E. auto.
Qed.

(** C5.  Once the search from the leaf has completed and one of the paths
    built holds a trusted certificate, [sort] returns the leaf followed by
    a path that holds a trusted certificate and has the fewest certificates
    among the built paths that do: the trusted paths built before it are at
    least as long and the trusted paths built after it longer (of the
    shortest, the last in the order of the search).  That chain is what the
    call hands to the validator: the call returns it when it is valid, and
    returns no other chain. *)
Theorem shortest_trusted_path (now : Date) (fuel : nat)
        (opts : VerifyCertificateChainOptions cert)
        (leafCert : cert) (paths : list (list cert)) :
  let this := constructor now opts in
  let trustedPath := fun q : list cert =>
                       exists t, In t q /\ In t (trustedCerts opts) in
  nth_error (localCerts this) (length (localCerts this) - 1)
    = Some leafCert ->
  buildPaths this fuel leafCert = Return paths ->
  (exists q, In q paths /\ trustedPath q) ->
  exists before path after,
    paths = before ++ path :: after /\
    trustedPath path /\
    (forall q, In q before -> trustedPath q -> length path <= length q) /\
    (forall q, In q after -> trustedPath q -> length path < length q) /\
    sort this fuel = Return (leafCert :: path) /\
    (forall chain,
        verifyCertificateChain now fuel opts = Return chain ->
        chain = leafCert :: path) /\
    (certs opts <> [] ->
     checkPath this (leafCert :: path) = Return tt ->
     verifyCertificateChain now fuel opts = Return (leafCert :: path)).
Proof.
  intros this trustedPath Hleaf Hbuild (q0 & Hq0 & Ht0).
  assert (Hfilter : In q0 (filter (containsTrusted this) paths)).
  { apply filter_In. split; trivial. now apply containsTrusted_true. }
  destruct (filter (containsTrusted this) paths) as [|first others] eqn:Hf;
    [destruct Hfilter|]. clear Hfilter.
  destruct (reduce_shorter others first)
    as (before' & after' & Heq & Hbefore & Hafter).
  set (path := fold_left shorter others first) in *.
  rewrite Heq in Hf.
  assert (Hpath : In path (filter (containsTrusted this) paths))
    by (rewrite Hf; apply in_elt).
  apply filter_In in Hpath. destruct Hpath as [_ Hpath].
  apply containsTrusted_true in Hpath.
  destruct (@filter_split _ _ _ _ _ _ Hf) as (before & after & Hp & Hb & Ha).
  assert (Hsort : sort this fuel = Return (leafCert :: path)).
  { unfold sort. rewrite Hleaf, Hbuild. cbn [bind].
    rewrite Hf, <- Heq. reflexivity. }
  exists before, path, after. split; [exact Hp|]. split; [exact Hpath|].
  split; [|split; [|split; [exact Hsort|split]]].
  - intros q Hq Hq'. rewrite Forall_forall in Hbefore. apply Hbefore.
    rewrite <- Hb. apply filter_In. split; trivial.
    now apply containsTrusted_true.
  - intros q Hq Hq'. rewrite Forall_forall in Hafter. apply Hafter.
    rewrite <- Ha. apply filter_In. split; trivial.
    now apply containsTrusted_true.
  - intros chain H. apply verify_Return in H. destruct H as (_ & Hs & _).
    fold this in Hs. congruence.
  - intros Hc Hcheck. unfold verifyCertificateChain, verify. fold this.
    destruct (this_certs this) eqn:E; [contradiction|].
    rewrite Hsort. cbn [bind]. rewrite Hcheck. reflexivity.
Qed.

(** C6.  Without supplied certificates the call throws
    'No certificates provided', whatever the trusted certificates are and
    without any path search (no fuel is needed). *)
Theorem no_certificates_provided (now : Date) (fuel : nat)
        (trusted : list cert) (date : option Date) :
  verifyCertificateChain now fuel
    {| trustedCerts := trusted; certs := []; validAt := date |} =
  Throw (VerificationError "No certificates provided").
Proof. reflexivity. Qed.

(** C10.  Every certificate of a returned chain is a member of the
    deduplicated pool built from the trusted certificates followed by the
    supplied ones. *)
Theorem chain_within_pool (now : Date) (fuel : nat)
        (opts : VerifyCertificateChainOptions cert) (P : list cert) :
  verifyCertificateChain now fuel opts = Return P ->
  forall c, In c P ->
            In c (dedupeCertificates (trustedCerts opts ++ certs opts)).
Proof.
  intros H c Hc. apply verify_Return in H. destruct H as (_ & Hs & _).
  apply sort_Return in Hs.
  destruct Hs as (leafCert & paths & first & others & Hleaf & Hb & Hf & ->).
  apply nth_error_In in Hleaf.
  destruct Hc as [<-|Hc]; [exact Hleaf|].
  destruct (reduce_shorter others first) as (before & after & Heq & _).
  assert (Hin : In (fold_left shorter others first) paths).
  { eapply proj1. apply filter_In with (f := containsTrusted (constructor now opts)).
    rewrite Hf, Heq. apply in_elt. }
  exact (@buildPaths_localCerts _ _ (constructor now opts) fuel leafCert paths
           Hleaf Hb _ Hin c Hc).
Qed.

(** C9 (amended).  When the only supplied certificate [c] is structurally
    equal to the last certificate [t] of the deduplicated trusted list (for
    instance when [t] is the only trusted certificate), and [c] is
    self-issued, verifies itself, is a CA and is valid at the check date,
    the call returns the two-element chain [[t; t]]: the trusted copy of
    [c], twice. *)
Theorem single_self_signed_trusted {Laws : x509Structural X}
        (now : Date) (fuel : nat) (trusted rest : list cert) (t c : cert)
        (date : option Date) :
  dedupeCertificates trusted = rest ++ [t] ->
  equals t c = true ->
  subject c = issuer c ->
  cert_verify c None = Returns true ->
  isCA c = true ->
  validForDate c (match date with Some d => d | None => now end) = true ->
  verifyCertificateChain now (S fuel)
    {| trustedCerts := trusted; certs := [c]; validAt := date |} =
  Return [t; t].
Proof.
  intros Hpool Htc Hself Hverify Hca Hvalid.
  rewrite <- (equals_subject _ _ Htc), <- (equals_issuer _ _ Htc) in Hself.
  rewrite <- (equals_verify_self _ _ Htc) in Hverify.
  rewrite <- (equals_isCA _ _ Htc) in Hca.
  rewrite <- (equals_validForDate _ _ _ Htc) in Hvalid.
  assert (Htrusted : In t trusted).
  { apply dedupeCertificates_In. rewrite Hpool. apply in_elt. }
  assert (Hloop : Buffer_equals (subject t) (issuer t) = true)
    by now apply Buffer_equals_eq.
  unfold verifyCertificateChain, verify, constructor, sort.
  cbn [this_certs localCerts trustedCerts certs validAt].
  rewrite dedupeCertificates_duplicate by eauto.
  rewrite app_nil_r, Hpool, nth_error_last.
  cbn [buildPaths]. unfold findIssuer. rewrite Hloop, Hverify.
  cbn [bind forIssuers]. rewrite equals_refl. cbn [forIssuers app bind filter].
  unfold containsTrusted. cbn [existsb this_trustedCerts].
  rewrite (proj2 (includes_In trusted t) Htrusted).
  cbn [orb fold_left bind]. unfold checkPath.
  cbn [length Nat.ltb Nat.leb forallb skipn this_validAt Nat.sub
       nameChainingLoop nth_error].
  rewrite Hvalid, Hca, Buffer_equals_sym, Hloop. reflexivity.
Qed.

End Chain.

(** ** The path validator *)

Section Validator.

Variable cert : Type.
Context {X : x509Certificate cert}.
Variable this : CertificateChainVerifier cert.

Lemma forallb_Forall_true {A : Type} (f : A -> bool) (l : list A) :
  forallb f l = true <-> Forall (fun x => f x = true) l.
Proof. now rewrite forallb_forall, Forall_forall. Qed.

(** All adjacent pairs are chained exactly when the loop accepts. *)
Lemma nameChainingLoop_adjacent (path : list cert) :
  nameChainingLoop path (length path - 1) = true <->
  forall i a b,
    nth_error path i = Some a -> nth_error path (S i) = Some b ->
    issuer a = subject b.
Proof.
  rewrite nameChainingLoop_true. split.
  - intros H i a b Ha Hb.
    assert (Hi : S i < length path) by (apply nth_error_Some; congruence).
    destruct (H i) as (a' & b' & Ha' & Hb' & E); [lia|]. congruence.
  - intros H i Hi.
    destruct (nth_error path i) as [a|] eqn:Ea;
      [|apply nth_error_None in Ea; lia].
    destruct (nth_error path (S i)) as [b|] eqn:Eb;
      [|apply nth_error_None in Eb; lia].
    exists a, b. eauto.
Qed.

(** C7.  The validator applies its rules in a fixed order (length, validity
    at the check date, CA flag beyond the leaf, name chaining) and throws
    the error of the first rule that is violated, whatever later rules are
    violated as well; a thrown error is the outcome of the whole
    verification. *)
Theorem checkPath_first_violated_rule (path : list cert) :
  let valid := fun c => validForDate c (this_validAt this) = true in
  let ca := fun c => isCA c = true in
  let chained := forall i a b,
      nth_error path i = Some a -> nth_error path (S i) = Some b ->
      issuer a = subject b in
  (length path < 2 ->
   checkPath this path =
   Throw (VerificationError
            "Certificate chain must contain at least two certificates")) /\
  (2 <= length path -> ~ Forall valid path ->
   checkPath this path =
   Throw (VerificationError
            "Certificate is not valid or expired at the specified date")) /\
  (2 <= length path -> Forall valid path -> ~ Forall ca (tl path) ->
   checkPath this path =
   Throw (VerificationError "Intermediate certificate is not a CA")) /\
  (2 <= length path -> Forall valid path -> Forall ca (tl path) ->
   ~ chained ->
   checkPath this path =
   Throw (VerificationError "Incorrect certificate name chaining")) /\
  (2 <= length path -> Forall valid path -> Forall ca (tl path) ->
   chained ->
   checkPath this path = Return tt) /\
  (forall fuel e,
      this_certs this <> [] -> sort this fuel = Return path ->
      checkPath this path = Throw e -> verify this fuel = Throw e).
Proof.
  intros valid ca chained. unfold checkPath.
  change (skipn 1 path) with (tl path).
  destruct (length path <? 2) eqn:Elen;
    [apply Nat.ltb_lt in Elen | apply Nat.ltb_ge in Elen].
  { repeat split; try (intros; lia); trivial.
    intros fuel e Hc Hs _. apply sort_length in Hs. lia. }
  destruct (forallb (fun c => validForDate c (this_validAt this)) path)
    eqn:Evalid; cbn [negb].
  2:{ assert (~ Forall valid path).
      { intros H. apply forallb_Forall_true in H. congruence. }
      repeat split; try (intros; (lia || contradiction)); trivial.
      intros fuel e Hc Hs He. unfold verify.
      destruct (this_certs this); [congruence|]. rewrite Hs. cbn [bind].
      unfold checkPath. apply Nat.ltb_ge in Elen.
      rewrite Elen, Evalid. cbn [negb bind]. congruence. }
  apply forallb_Forall_true in Evalid.
  destruct (forallb isCA (tl path)) eqn:Eca; cbn [negb].
  2:{ assert (~ Forall ca (tl path)).
      { intros H. apply forallb_Forall_true in H. congruence. }
      repeat split; try (intros; (lia || contradiction)); trivial.
      intros fuel e Hc Hs He. unfold verify.
      destruct (this_certs this); [congruence|]. rewrite Hs. cbn [bind].
      unfold checkPath. change (skipn 1 path) with (tl path).
      apply Nat.ltb_ge in Elen. apply forallb_Forall_true in Evalid.
      rewrite Elen, Evalid, Eca. cbn [negb bind]. congruence. }
  apply forallb_Forall_true in Eca.
  destruct (nameChainingLoop path (length path - 1)) eqn:Echain; cbn [negb].
  - pose proof (proj1 (nameChainingLoop_adjacent path) Echain) as Hch.
    repeat split; try (intros; (lia || contradiction)); trivial.
    intros fuel e _ _ [=].
  - assert (~ chained).
    { intros H. apply (proj2 (nameChainingLoop_adjacent path)) in H.
      congruence. }
    repeat split; try (intros; (lia || contradiction)); trivial.
    intros fuel e Hc Hs He. unfold verify.
    destruct (this_certs this); [congruence|]. rewrite Hs. cbn [bind].
    unfold checkPath. change (skipn 1 path) with (tl path).
    apply Nat.ltb_ge in Elen.
    apply forallb_Forall_true in Evalid. apply forallb_Forall_true in Eca.
    rewrite Elen, Evalid, Eca, Echain. cbn [negb bind]. congruence.
Qed.

End Validator.

(** * The properties on the example authority *)

Import Fixture.

(** The exception of a candidate's [verify] is swallowed by the final
    filter: the candidate is dropped and the search goes on. *)
Lemma candidate_exception_caught (fuel : nat) :
  cert_verify issuedByMalformed (Some malformed) = Raises "Invalid public key"
  /\ findIssuer (constructor 0%Z (options [root] [malformed; issuedByMalformed]))
                issuedByMalformed = Return []
  /\ verifyCertificateChain 0%Z (S fuel)
       (options [root] [malformed; issuedByMalformed]) =
     Throw (VerificationError "No valid certificate path found").
Proof. repeat split. Qed.

(** C1, counterexample.  With a trusted intermediate and an untrusted root
    the chain ends in the root, which is not trusted; and when the only
    supplied certificate duplicates a trusted one, the chain starts with
    another trusted certificate, which was not supplied. *)
Lemma chain_end_untrusted_leaf_not_supplied :
  (verifyCertificateChain 0%Z 4 (options [int] [root; leaf]) =
   Return [leaf; int; root; root]
   /\ ~ In root [int] /\ existsb (equals root) [int] = false)
  /\
  (verifyCertificateChain 0%Z 4 (options [root; otherRoot] [root']) =
   Return [otherRoot; otherRoot]
   /\ ~ In otherRoot [root'] /\ existsb (equals otherRoot) [root'] = false).
Proof.
  repeat split; try (intros [H|[]]; discriminate H).
Qed.

Lemma chain_endpoints_witness :
  verifyCertificateChain 0%Z 4 (options [root] [int; leaf]) =
  Return [leaf; int; root; root]
  /\ exists leafCert path,
      [leaf; int; root; root] = leafCert :: path /\
      nth_error (dedupeCertificates ([root] ++ [int; leaf]))
                (length (dedupeCertificates ([root] ++ [int; leaf])) - 1)
        = Some leafCert /\
      (forall supplied l,
          [int; leaf] = supplied ++ [l] ->
          (forall y, In y ([root] ++ supplied) -> equals y l = false) ->
          leafCert = l) /\
      exists t, In t path /\ In t [root].
Proof.
  split; [reflexivity|].
  apply (@chain_endpoints object certificate 0%Z 4
           (options [root] [int; leaf]) [leaf; int; root; root]).
  reflexivity.
Defined.

(** C2, at the failing input.  A self-signed trusted certificate supplied
    alone (the same object, or a second object parsed from the same bytes)
    is returned as the chain [[root; root]]; the length rule of the
    validator does not fire. *)
Theorem self_signed_trusted_leaf_returned (fuel : nat) :
  verifyCertificateChain 0%Z (S fuel) (options [root] [root]) =
  Return [root; root]
  /\ verifyCertificateChain 0%Z (S fuel) (options [root] [root']) =
     Return [root; root].
Proof. split; reflexivity. Qed.

(** C3, counterexample.  The leaf carries an authority key identifier, the
    intermediate has no subject key identifier, and yet the intermediate is
    a candidate, and the issuer found, by the comparison of names. *)
Lemma issuer_without_subjectKeyID_found :
  let this := constructor 0%Z (options [root] [int; leafAki]) in
  keyIdentifierOf leafAki = Some (list_byte_of_string "id-int")
  /\ extSubjectKeyID int = None
  /\ possibleIssuers this leafAki = [int]
  /\ findIssuer this leafAki = Return [int]
  /\ verifyCertificateChain 0%Z 4 (options [root] [int; leafAki]) =
     Return [leafAki; int; root; root].
Proof. repeat split. Qed.

Lemma possibleIssuers_with_keyIdentifier_witness :
  let this := constructor 0%Z (options [root] [int; intSki; leafAki]) in
  keyIdentifierOf leafAki = Some (list_byte_of_string "id-int")
  /\ (In int (possibleIssuers this leafAki) <->
      In int (localCerts this) /\ subject int = issuer leafAki)
  /\ (In intSki (possibleIssuers this leafAki) <->
      In intSki (localCerts this) /\
      list_byte_of_string "id-other" = list_byte_of_string "id-int").
Proof.
  intros this.
  pose proof (@possibleIssuers_with_keyIdentifier object certificate this
                leafAki (list_byte_of_string "id-int") eq_refl) as [H _].
  split; [reflexivity|]. split; [exact (H int) | exact (H intSki)].
Defined.

(** C4, counterexamples.  Without supplied certificates, supplying a copy
    of the trusted root turns the 'No certificates provided' error into a
    returned chain; and trusting a copy of a supplied root turns
    'No trusted certificate path found' into a returned chain. *)
Lemma duplicate_changes_outcome :
  equals root root' = true
  /\ (verifyCertificateChain 0%Z 4 (options [root] []) =
      Throw (VerificationError "No certificates provided")
      /\ verifyCertificateChain 0%Z 4 (options [root] [root']) =
         Return [root; root])
  /\ (verifyCertificateChain 0%Z 4 (options [] [root; int; leaf]) =
      Throw (VerificationError "No trusted certificate path found")
      /\ verifyCertificateChain 0%Z 4 (options [root'] [root; int; leaf]) =
         Return [leaf; int; root'; root']).
Proof. repeat split. Qed.

Lemma duplicate_of_trusted_ignored_witness :
  [int] ++ [leaf] <> []
  /\ (exists t, In t [root] /\ equals t root' = true)
  /\ verifyCertificateChain 0%Z 4 (options [root] ([int] ++ root' :: [leaf])) =
     verifyCertificateChain 0%Z 4 (options [root] ([int] ++ [leaf])).
Proof.
  assert (Hne : [int] ++ [leaf] <> []) by discriminate.
  assert (Hdup : exists t, In t [root] /\ equals t root' = true)
    by (exists root; split; [now left | reflexivity]).
  split; [exact Hne|]. split; [exact Hdup|].
  exact (@duplicate_of_trusted_ignored object certificate fixture_structural
           0%Z 4 [root] [int] [leaf] root' (Some 1500%Z) Hne Hdup).
Defined.

(** Three issuer paths are built for the leaf: a trusted one of two
    certificates, an untrusted one of two and a trusted one of three.  The
    trusted path of two is taken: not the longer trusted one, and not the
    untrusted one although it is as short and was built later. *)
Lemma shortest_trusted_path_witness :
  let opts := options [root; selfInt] [selfInt2; int; leaf] in
  let this := constructor 0%Z opts in
  buildPaths this 4 leaf =
  Return [[selfInt; selfInt]; [selfInt2; selfInt2]; [int; root; root]]
  /\ verifyCertificateChain 0%Z 4 opts = Return [leaf; selfInt; selfInt]
  /\ exists before path after,
      [[selfInt; selfInt]; [selfInt2; selfInt2]; [int; root; root]] =
      before ++ path :: after /\
      (exists t, In t path /\ In t [root; selfInt]) /\
      (forall q, In q before ->
                 (exists t, In t q /\ In t [root; selfInt]) ->
                 length path <= length q) /\
      (forall q, In q after ->
                 (exists t, In t q /\ In t [root; selfInt]) ->
                 length path < length q) /\
      sort this 4 = Return (leaf :: path) /\
      (forall chain,
          verifyCertificateChain 0%Z 4 opts = Return chain ->
          chain = leaf :: path) /\
      (certs opts <> [] ->
       checkPath this (leaf :: path) = Return tt ->
       verifyCertificateChain 0%Z 4 opts = Return (leaf :: path)).
Proof.
  intros opts this.
  assert (Hb : buildPaths this 4 leaf =
               Return [[selfInt; selfInt]; [selfInt2; selfInt2];
                       [int; root; root]]) by reflexivity.
  split; [exact Hb|]. split; [reflexivity|].
  refine (@shortest_trusted_path object certificate 0%Z 4 opts leaf _
            eq_refl Hb _).
  exists [selfInt; selfInt]. split; [now left|].
  exists selfInt. split; [now left | right; now left].
Defined.

(** C8, at the failing input.  The self-check of a self-issued certificate
    is made outside the [try]: when it raises, the exception leaves
    [verifyCertificateChain]. *)
Theorem self_check_exception_propagates (fuel : nat) :
  subject malformed = issuer malformed
  /\ cert_verify malformed None = Raises "Invalid public key"
  /\ verifyCertificateChain 0%Z (S fuel) (options [root] [malformed]) =
     Throw (CertificateException "Invalid public key").
Proof. repeat split. Qed.

(** C9, counterexample.  The supplied certificate is a self-signed,
    self-verifying, valid CA and equals the trusted [root]; another trusted
    certificate follows [root], becomes the leaf, and the call fails. *)
Lemma trusted_leaf_replaced_by_last_trusted :
  subject root' = issuer root'
  /\ cert_verify root' None = Returns true
  /\ In root [root; orphan] /\ equals root' root = true
  /\ isCA root' = true /\ validForDate root' 1500%Z = true
  /\ verifyCertificateChain 0%Z 4 (options [root; orphan] [root']) =
     Throw (VerificationError "No valid certificate path found").
Proof. repeat split. now left. Qed.

Lemma single_self_signed_trusted_witness :
  dedupeCertificates [root] = [] ++ [root]
  /\ equals root root' = true
  /\ verifyCertificateChain 0%Z 1 (options [root] [root']) =
     Return [root; root].
Proof.
  split; [reflexivity|]. split; [reflexivity|].
  exact (@single_self_signed_trusted object certificate fixture_structural
           0%Z 0 [root] [] root root' (Some 1500%Z)
           eq_refl eq_refl eq_refl eq_refl eq_refl eq_refl).
Defined.

Lemma chain_within_pool_witness :
  verifyCertificateChain 0%Z 4 (options [root] [int; leaf]) =
  Return [leaf; int; root; root]
  /\ forall c, In c [leaf; int; root; root] ->
               In c (dedupeCertificates ([root] ++ [int; leaf])).
Proof.
  split; [reflexivity|].
  apply (@chain_within_pool object certificate 0%Z 4
           (options [root] [int; leaf]) [leaf; int; root; root]).
  reflexivity.
Defined.

(** A path that breaks the validity, CA and name chaining rules at once is
    rejected for the validity rule, the first of the three. *)
Lemma checkPath_first_violated_rule_witness :
  let this := constructor 0%Z
                {| trustedCerts := [root]; certs := [leaf];
                   validAt := Some 5000%Z |} in
  2 <= length [leaf; leaf]
  /\ ~ Forall (fun c => validForDate c (this_validAt this) = true) [leaf; leaf]
  /\ ~ Forall (fun c => isCA c = true) (tl [leaf; leaf])
  /\ issuer leaf <> subject leaf
  /\ checkPath this [leaf; leaf] =
     Throw (VerificationError
              "Certificate is not valid or expired at the specified date").
Proof.
  intros this.
  assert (Hlen : 2 <= length [leaf; leaf]) by (simpl; lia).
  assert (Hvalid : ~ Forall (fun c => validForDate c (this_validAt this) = true)
                     [leaf; leaf]).
  { intros H. inversion H as [|? ? H1 _]. discriminate H1. }
  split; [exact Hlen|]. split; [exact Hvalid|]. split; [|split].
  - intros H. inversion H as [|? ? H1 _]. discriminate H1.
  - discriminate.
  - exact (proj1 (proj2 (@checkPath_first_violated_rule object certificate
                           this [leaf; leaf])) Hlen Hvalid).
Defined.

(** * Further properties of the verifier *)

Section Pool.

Variable cert : Type.
Context {X : x509Certificate cert}.

Lemma spliceEquals_distinct (x : cert) (l : list cert) :
  Forall (fun y => equals x y = false) l -> spliceEquals x l = l.
Proof.
  induction 1 as [|y l Hy _ IH]; simpl; trivial. now rewrite Hy, IH.
Qed.

Lemma dedupeCertificates_distinct (l : list cert) :
  ForallOrdPairs (fun a b => equals a b = false) l ->
  dedupeCertificates l = l.
Proof.
  induction 1 as [|a l Ha _ IH]; [reflexivity|].
  now rewrite dedupeCertificates_cons, spliceEquals_distinct, IH.
Qed.

Lemma dedupeCertificates_pairwise (l : list cert) :
  ForallOrdPairs (fun a b => equals a b = false) (dedupeCertificates l).
Proof.
  induction l as [|x l IH] using dedupe_ind.
  - rewrite dedupeCertificates_nil. constructor.
  - rewrite dedupeCertificates_cons. constructor; trivial.
    apply Forall_forall. intros y Hy. apply dedupeCertificates_In in Hy.
    now apply spliceEquals_In in Hy.
Qed.

(** X1.  After normalisation no certificate of the pool [equals] a later
    one, and normalising a pool again leaves it as it is. *)
Theorem pool_has_no_duplicates (l : list cert) :
  ForallOrdPairs (fun a b => equals a b = false) (dedupeCertificates l) /\
  dedupeCertificates (dedupeCertificates l) = dedupeCertificates l.
Proof.
  split; [apply dedupeCertificates_pairwise|].
  apply dedupeCertificates_distinct, dedupeCertificates_pairwise.
Qed.

(** X2.  The pool holds input certificates only, and every input
    certificate is in the pool or is equalled by a certificate of the
    pool: nothing is invented and no certificate is lost without a
    structurally equal representative. *)
Theorem pool_represents_input (l : list cert) (c : cert) :
  (In c (dedupeCertificates l) -> In c l) /\
  (In c l ->
   exists x, In x (dedupeCertificates l) /\ (x = c \/ equals x c = true)).
Proof.
  split; [apply dedupeCertificates_In|].
  revert c. induction l as [|x l IH] using dedupe_ind; intros c; [intros []|].
  rewrite dedupeCertificates_cons. intros [->|Hc].
  - exists c. split; [now left | now left].
  - destruct (equals x c) eqn:E.
    + exists x. split; [now left | now right].
    + destruct (IH c) as (y & Hy & Hyc).
      { apply spliceEquals_In. auto. }
      exists y. split; [now right | exact Hyc].
Qed.

(** X3.  A pool certificate that a trusted certificate equals is itself one
    of the trusted objects: of structurally equal certificates the trusted
    one is kept, so the identity test of [includes] finds it. *)
Theorem trusted_copy_is_kept {Laws : x509Structural X}
        (trusted supplied : list cert) (p : cert) :
  In p (dedupeCertificates (trusted ++ supplied)) ->
  (exists t, In t trusted /\ equals t p = true) ->
  In p trusted.
Proof.
  revert supplied. induction trusted as [|x trusted IH] using dedupe_ind;
    intros supplied Hp (t & Ht & Htp); [destruct Ht|].
  cbn [app] in Hp. rewrite dedupeCertificates_cons, spliceEquals_app in Hp.
  destruct Hp as [->|Hp]; [now left|]. right.
  assert (Hxp : equals x p = false).
  { apply dedupeCertificates_In, in_app_or in Hp.
    destruct Hp as [Hp|Hp]; now apply spliceEquals_In in Hp. }
  destruct Ht as [->|Ht]; [congruence|].
  assert (Hxt : equals x t = false).
  { destruct (equals x t) eqn:E; trivial.
    rewrite (equals_trans _ _ _ E Htp) in Hxp. discriminate. }
  assert (Hin : In p (spliceEquals x trusted)).
  { apply (IH _ Hp). exists t. split; trivial. apply spliceEquals_In. auto. }
  now apply spliceEquals_In in Hin.
Qed.

End Pool.

Section Issuers.

Variable cert : Type.
Context {X : x509Certificate cert}.
Variable this : CertificateChainVerifier cert.

Lemma Buffer_equals_false (a b : Buffer) :
  a <> b -> Buffer_equals a b = false.
Proof.
  intros H. destruct (Buffer_equals a b) eqn:E; trivial.
  apply Buffer_equals_eq in E. contradiction.
Qed.

Lemma verifiedBy_true (certificate candidate : cert) :
  verifiedBy certificate candidate = true <->
  cert_verify certificate (Some candidate) = Returns true.
Proof.
  unfold verifiedBy.
  destruct (cert_verify certificate (Some candidate)) as [[|]|m];
    split; congruence.
Qed.

Lemma isPossibleIssuer_true (certificate p : cert) :
  isPossibleIssuer (keyIdentifierOf certificate) certificate p = true ->
  (exists kid ski,
      keyIdentifierOf certificate = Some kid /\
      extSubjectKeyID p = Some ski /\ ski_keyIdentifier ski = kid) \/
  subject p = issuer certificate.
Proof.
  unfold isPossibleIssuer.
  destruct (keyIdentifierOf certificate) as [kid|];
    [destruct (extSubjectKeyID p) as [ski|]|];
    intros E; apply Buffer_equals_eq in E; auto.
  left. exists kid, ski. auto.
Qed.

Lemma findIssuer_cases (certificate : cert) (issuers : list cert) (i : cert) :
  findIssuer this certificate = Return issuers ->
  In i issuers ->
  (i = certificate /\ subject certificate = issuer certificate /\
   cert_verify certificate None = Returns true) \/
  (In i (localCerts this) /\
   cert_verify certificate (Some i) = Returns true /\
   ((exists kid ski,
        keyIdentifierOf certificate = Some kid /\
        extSubjectKeyID i = Some ski /\ ski_keyIdentifier ski = kid) \/
    subject i = issuer certificate)).
Proof.
  unfold findIssuer. intros H Hi.
  assert (Hlookup :
            In i (filter (verifiedBy certificate)
                         (possibleIssuers this certificate)) ->
            In i (localCerts this) /\
            cert_verify certificate (Some i) = Returns true /\
            ((exists kid ski,
                 keyIdentifierOf certificate = Some kid /\
                 extSubjectKeyID i = Some ski /\ ski_keyIdentifier ski = kid) \/
             subject i = issuer certificate)).
  { intros Hin. apply filter_In in Hin. destruct Hin as [Hin Hv].
    apply possibleIssuers_In in Hin. destruct Hin as [Hin Hp].
    repeat split; trivial; [now apply verifiedBy_true |
                            now apply isPossibleIssuer_true]. }
  destruct (Buffer_equals (subject certificate) (issuer certificate)) eqn:E.
  - destruct (cert_verify certificate None) as [[|]|m] eqn:Ev;
      try discriminate; injection H as <-.
    + destruct Hi as [<-|[]]. left. apply Buffer_equals_eq in E. auto.
    + right. auto.
  - injection H as <-. right. auto.
Qed.

(** X4.  An issuer found for a certificate is either the certificate
    itself, self-issued and passing its own signature check, or a member of
    the pool against which the signature of the certificate verified
    (returned [true], without raising) and that matches by key identifier
    or by name. *)
Theorem findIssuer_sound (certificate : cert) (issuers : list cert) (i : cert) :
  findIssuer this certificate = Return issuers ->
  In i issuers ->
  (i = certificate /\ subject certificate = issuer certificate /\
   cert_verify certificate None = Returns true) \/
  (In i (localCerts this) /\
   cert_verify certificate (Some i) = Returns true /\
   ((exists kid ski,
        keyIdentifierOf certificate = Some kid /\
        extSubjectKeyID i = Some ski /\ ski_keyIdentifier ski = kid) \/
    subject i = issuer certificate)).
Proof. apply findIssuer_cases. Qed.


(** What the loop over the issuers appends, with the branch taken. *)
Lemma forIssuers_branches (rec : cert -> outcome (list (list cert)))
      (certificate : cert) (issuers : list cert)
      (paths out : list (list cert)) :
  forIssuers rec certificate issuers paths = Return out ->
  exists added,
    out = paths ++ added /\
    Forall (fun p =>
              (p = [certificate] /\
               exists i, In i issuers /\ equals i certificate = true) \/
              exists i subPaths subPath,
                In i issuers /\ equals i certificate = false /\
                rec i = Return subPaths /\
                In subPath subPaths /\ p = i :: subPath) added.
Proof.
  revert paths. induction issuers as [|i issuers IH]; intros paths; simpl.
  - intros [= <-]. exists []. split; [now rewrite app_nil_r | constructor].
  - destruct (equals i certificate) eqn:E.
    + intros H. apply IH in H. destruct H as (added & -> & Hall).
      exists ([certificate] :: added). split; [now rewrite <- app_assoc|].
      constructor; [left; eauto|].
      eapply Forall_impl; [|exact Hall]. simpl.
      intros p [(-> & j & Hj & Ej)|(j & sub & sp & Hj & Ej & Hrec & Hsp & ->)].
      * left. eauto.
      * right. exists j, sub, sp. auto.
    + intros H. apply bind_Return in H. destruct H as (subPaths & Hrec & H).
      apply IH in H. destruct H as (added & -> & Hall).
      exists (map (fun subPath => i :: subPath) subPaths ++ added).
      split; [now rewrite <- app_assoc|].
      apply Forall_app. split.
      * apply Forall_forall. intros p Hp. apply in_map_iff in Hp.
        destruct Hp as (sp & <- & Hsp). right. exists i, subPaths, sp. auto.
      * eapply Forall_impl; [|exact Hall]. simpl.
        intros p [(-> & j & Hj & Ej)|(j & sub & sp & Hj & Ej & Hrec' & Hsp & ->)].
        -- left. eauto.
        -- right. exists j, sub, sp. auto 6.
Qed.

Lemma buildPaths_links (fuel : nat) :
  forall (certificate : cert) (paths : list (list cert)),
    buildPaths this fuel certificate = Return paths ->
    forall p, In p paths ->
    forall k a b,
      nth_error (certificate :: p) k = Some a ->
      nth_error (certificate :: p) (S k) = Some b ->
      issuerLink this a b.
Proof.
  induction fuel as [|fuel IH]; intros certificate paths H p Hp k a b Ha Hb;
    [discriminate|].
  apply buildPaths_Return in H.
  destruct H as (fuel' & issuers & [= <-] & Hfind & _ & H).
  apply forIssuers_branches in H. destruct H as (added & -> & Hall).
  rewrite Forall_forall in Hall.
  destruct (Hall p Hp)
    as [(-> & i & Hi & Ei)|(i & sub & sp & Hi & Ei & Hrec & Hsp & ->)].
  - destruct k as [|[|k]]; simpl in Ha, Hb; try discriminate.
    injection Ha as <-. injection Hb as <-.
    exists issuers, i. auto.
  - destruct k as [|k].
    + simpl in Ha, Hb. injection Ha as <-. injection Hb as <-.
      exists issuers, i. auto.
    + exact (IH i sub Hrec sp Hsp k a b Ha Hb).
Qed.

Lemma buildPaths_twice (fuel : nat) :
  forall (certificate : cert) (paths : list (list cert)),
    buildPaths this fuel certificate = Return paths ->
    forall p, In p paths ->
    exists q r, certificate :: p = q ++ [r; r].
Proof.
  induction fuel as [|fuel IH]; intros certificate paths H p Hp;
    [discriminate|].
  apply buildPaths_Return in H.
  destruct H as (fuel' & issuers & [= <-] & Hfind & _ & H).
  apply forIssuers_branches in H. destruct H as (added & -> & Hall).
  rewrite Forall_forall in Hall.
  destruct (Hall p Hp)
    as [(-> & _)|(i & sub & sp & Hi & Ei & Hrec & Hsp & ->)].
  - exists [], certificate. reflexivity.
  - destruct (IH i sub Hrec sp Hsp) as (q & r & Heq).
    exists (certificate :: q), r. simpl. now rewrite Heq.
Qed.

End Issuers.

Section Outcome.

Variable cert : Type.
Context {X : x509Certificate cert}.

Lemma nth_error_last_Some (l : list cert) :
  l <> [] -> exists x, nth_error l (length l - 1) = Some x.
Proof.
  intros H. destruct (nth_error l (length l - 1)) as [x|] eqn:E; eauto.
  apply nth_error_None in E. destruct l; [congruence|simpl in E; lia].
Qed.

Lemma checkPath_Return (this : CertificateChainVerifier cert)
      (path : list cert) :
  checkPath this path = Return tt ->
  2 <= length path /\
  Forall (fun c => validForDate c (this_validAt this) = true) path /\
  Forall (fun c => isCA c = true) (tl path) /\
  forall i a b,
    nth_error path i = Some a -> nth_error path (S i) = Some b ->
    issuer a = subject b.
Proof.
  unfold checkPath. change (skipn 1 path) with (tl path).
  destruct (length path <? 2) eqn:Elen; [discriminate|].
  destruct (forallb (fun c => validForDate c (this_validAt this)) path)
    eqn:Evalid; [|discriminate].
  destruct (forallb isCA (tl path)) eqn:Eca; [|discriminate].
  destruct (nameChainingLoop path (length path - 1)) eqn:Echain;
    [|discriminate].
  intros _. apply Nat.ltb_ge in Elen.
  repeat split; trivial; try now apply forallb_Forall_true.
  now apply nameChainingLoop_adjacent.
Qed.

Lemma checkPath_Throw (this : CertificateChainVerifier cert)
      (path : list cert) (e : thrown) :
  2 <= length path ->
  checkPath this path = Throw e ->
  exists m,
    e = VerificationError m /\
    In m ["Certificate is not valid or expired at the specified date";
          "Intermediate certificate is not a CA";
          "Incorrect certificate name chaining"].
Proof.
  intros Hlen. unfold checkPath. apply Nat.ltb_ge in Hlen. rewrite Hlen.
  destruct (forallb _ path); cbn [negb].
  2:{ intros [= <-]. eexists. split; [reflexivity|]. simpl. auto. }
  destruct (forallb isCA _); cbn [negb].
  2:{ intros [= <-]. eexists. split; [reflexivity|]. simpl. auto. }
  destruct (nameChainingLoop _ _); cbn [negb]; [discriminate|].
  intros [= <-]. eexists. split; [reflexivity|]. simpl. auto.
Qed.

Lemma forIssuers_Throw (rec : cert -> outcome (list (list cert)))
      (certificate : cert) (issuers : list cert) (e : thrown) :
  forall paths,
    forIssuers rec certificate issuers paths = Throw e ->
    exists i, In i issuers /\ rec i = Throw e.
Proof.
  induction issuers as [|i issuers IH]; intros paths; simpl; [discriminate|].
  destruct (equals i certificate).
  - intros H. apply IH in H. destruct H as (j & Hj & H). eauto.
  - destruct (rec i) as [sub|e'|] eqn:E; simpl.
    + intros H. apply IH in H. destruct H as (j & Hj & H). eauto.
    + intros [= <-]. eauto.
    + discriminate.
Qed.

(** The path search throws its own dead-end error or the exception of a
    self-check made on a pool certificate. *)
Lemma buildPaths_Throw (this : CertificateChainVerifier cert) (fuel : nat) :
  forall (certificate : cert) (e : thrown),
    In certificate (localCerts this) ->
    buildPaths this fuel certificate = Throw e ->
    e = VerificationError "No valid certificate path found" \/
    exists c m,
      In c (localCerts this) /\ subject c = issuer c /\
      cert_verify c None = Raises m /\ e = CertificateException m.
Proof.
  induction fuel as [|fuel IH]; intros certificate e Hin; [discriminate|].
  cbn [buildPaths].
  destruct (findIssuer this certificate) as [issuers|e'|] eqn:Ef;
    cbn [bind]; [| |discriminate].
  - destruct issuers as [|i0 issuers0] eqn:Ei; [intros [= <-]; now left|].
    rewrite <- Ei in *. intros H. apply forIssuers_Throw in H.
    destruct H as (i & Hi & H).
    apply (IH i e); trivial.
    destruct (findIssuer_In _ _ Ef _ Hi) as [->|]; trivial.
  - intros [= <-]. right. unfold findIssuer in Ef.
    destruct (Buffer_equals (subject certificate) (issuer certificate)) eqn:E;
      [|discriminate].
    apply Buffer_equals_eq in E.
    destruct (cert_verify certificate None) as [[|]|m] eqn:Ev;
      try discriminate.
    injection Ef as <-. exists certificate, m. auto.
Qed.

(** X6.  In a returned chain every certificate but the last was checked
    against its successor: for adjacent [a], [b] there is an issuer [i]
    found for [a], which is [b] (or, at the end of the chain where
    [b] is [a] again, a certificate that equals [a]), such that the
    signature of [a] verified against [i], or [i] is [a] itself,
    self-issued and passing its own check. *)
Theorem returned_chain_is_signed (now : Date) (fuel : nat)
        (opts : VerifyCertificateChainOptions cert) (P : list cert) :
  verifyCertificateChain now fuel opts = Return P ->
  forall k a b,
    nth_error P k = Some a -> nth_error P (S k) = Some b ->
    exists i,
      (i = b \/ (b = a /\ equals i a = true)) /\
      (cert_verify a (Some i) = Returns true \/
       (i = a /\ subject a = issuer a /\ cert_verify a None = Returns true)).
Proof.
  intros H k a b Ha Hb. apply verify_Return in H. destruct H as (_ & Hs & _).
  apply sort_Return in Hs.
  destruct Hs as (leafCert & paths & first & others & _ & Hbuild & Hf & ->).
  destruct (reduce_shorter others first) as (before & after & Heq & _).
  assert (Hin : In (fold_left shorter others first) paths).
  { eapply proj1.
    apply filter_In with (f := containsTrusted (constructor now opts)).
    rewrite Hf, Heq. apply in_elt. }
  destruct (@buildPaths_links _ _ _ _ _ _ Hbuild _ Hin k a b Ha Hb)
    as (issuers & i & Hfind & Hi & Hib).
  exists i. split; trivial.
  destruct (@findIssuer_cases _ _ _ _ _ _ Hfind Hi) as [?|(_ & ? & _)]; auto.
Qed.

(** X7.  Every returned chain ends with the same certificate object twice:
    the path of the self-issued end of the chain is that certificate, and
    its caller prepends it once more. *)
Theorem returned_chain_repeats_its_end (now : Date) (fuel : nat)
        (opts : VerifyCertificateChainOptions cert) (P : list cert) :
  verifyCertificateChain now fuel opts = Return P ->
  exists q r, P = q ++ [r; r].
Proof.
  intros H. apply verify_Return in H. destruct H as (_ & Hs & _).
  apply sort_Return in Hs.
  destruct Hs as (leafCert & paths & first & others & _ & Hbuild & Hf & ->).
  destruct (reduce_shorter others first) as (before & after & Heq & _).
  assert (Hin : In (fold_left shorter others first) paths).
  { eapply proj1.
    apply filter_In with (f := containsTrusted (constructor now opts)).
    rewrite Hf, Heq. apply in_elt. }
  exact (@buildPaths_twice _ _ _ _ _ _ Hbuild _ Hin).
Qed.

(** X8.  A returned chain passed every rule of the validator: it has at
    least two certificates, all are valid at the check date ([validAt], or
    the time of the call when none is given), all but the first are CAs,
    and the issuer of each is the subject of the next. *)
Theorem returned_chain_is_valid (now : Date) (fuel : nat)
        (opts : VerifyCertificateChainOptions cert) (P : list cert) :
  verifyCertificateChain now fuel opts = Return P ->
  let date := match validAt opts with Some d => d | None => now end in
  2 <= length P /\
  Forall (fun c => validForDate c date = true) P /\
  Forall (fun c => isCA c = true) (tl P) /\
  forall i a b,
    nth_error P i = Some a -> nth_error P (S i) = Some b ->
    issuer a = subject b.
Proof.
  intros H date. apply verify_Return in H. destruct H as (_ & _ & Hc).
  exact (@checkPath_Return _ _ Hc).
Qed.

(** X9.  The errors of the call: an exception raised by the self-check of a
    self-issued pool certificate, or a [VerificationError] with one of six
    messages.  'Certificate chain must contain at least two certificates'
    is not among them: the chain handed to the validator is never that
    short. *)
Theorem thrown_errors (now : Date) (fuel : nat)
        (opts : VerifyCertificateChainOptions cert) (e : thrown) :
  verifyCertificateChain now fuel opts = Throw e ->
  (exists c m,
      In c (dedupeCertificates (trustedCerts opts ++ certs opts)) /\
      subject c = issuer c /\ cert_verify c None = Raises m /\
      e = CertificateException m) \/
  (exists m,
      e = VerificationError m /\
      In m ["No certificates provided";
            "No valid certificate path found";
            "No trusted certificate path found";
            "Certificate is not valid or expired at the specified date";
            "Intermediate certificate is not a CA";
            "Incorrect certificate name chaining"]).
Proof.
  unfold verifyCertificateChain, verify.
  set (this := constructor now opts).
  destruct (this_certs this) as [|c0 cs] eqn:Ec.
  { intros [= <-]. right. eexists. split; [reflexivity|]. simpl. auto. }
  assert (Hpool : localCerts this <> []).
  { apply dedupeCertificates_nonempty. simpl in Ec. rewrite Ec.
    destruct (trustedCerts opts); discriminate. }
  destruct (sort this fuel) as [path|e'|] eqn:Es; cbn [bind];
    [| |discriminate].
  - pose proof (@sort_length _ _ _ _ _ Es) as Hlen.
    destruct (checkPath this path) as [[]|e1|] eqn:Ecp; cbn [bind];
      try discriminate.
    intros [= <-]. destruct (@checkPath_Throw _ _ _ Hlen Ecp) as (m & -> & Hm).
    right. exists m. split; trivial. simpl in *. intuition.
  - intros [= <-]. unfold sort in Es.
    destruct (@nth_error_last_Some _ Hpool) as (leafCert & Hleaf).
    rewrite Hleaf in Es.
    destruct (buildPaths this fuel leafCert) as [paths|e1|] eqn:Eb;
      cbn [bind] in Es; [| |discriminate].
    + destruct (filter (containsTrusted this) paths); [|discriminate].
      injection Es as <-. right. eexists. split; [reflexivity|].
      simpl. auto.
    + injection Es as <-. apply nth_error_In in Hleaf.
      destruct (@buildPaths_Throw _ _ _ _ Hleaf Eb) as [->|Hex].
      * right. eexists. split; [reflexivity|]. simpl. auto.
      * left. exact Hex.
Qed.

(** X10.  Without trusted certificates no chain is returned, whatever is
    supplied: the call throws (or, on an issuer cycle, does not complete). *)
Theorem nothing_trusted_nothing_returned (now : Date) (fuel : nat)
        (supplied : list cert) (date : option Date) :
  (exists e,
      verifyCertificateChain now fuel
        {| trustedCerts := []; certs := supplied; validAt := date |} =
      Throw e) \/
  verifyCertificateChain now fuel
    {| trustedCerts := []; certs := supplied; validAt := date |} = OutOfFuel.
Proof.
  destruct (verifyCertificateChain now fuel
              {| trustedCerts := []; certs := supplied; validAt := date |})
    as [P|e|] eqn:H; eauto.
  exfalso. apply verify_Return in H. destruct H as (_ & Hs & _).
  apply sort_Return in Hs.
  destruct Hs as (leafCert & paths & first & others & _ & _ & Hf & _).
  assert (Hin : In first (filter (containsTrusted
                 (constructor now {| trustedCerts := []; certs := supplied;
                                     validAt := date |})) paths)).
  { rewrite Hf. now left. }
  apply filter_In in Hin. destruct Hin as [_ Ht].
  apply existsb_exists in Ht. destruct Ht as (t & _ & Ht). discriminate Ht.
Qed.

End Outcome.

Section Search.

Variable cert : Type.
Context {X : x509Certificate cert}.

Lemma filter_none {A : Type} (f : A -> bool) (l : list A) :
  (forall x, In x l -> f x = false) -> filter f l = [].
Proof.
  induction l as [|x l IH]; intros H; simpl; trivial.
  rewrite (H x) by now left. apply IH. intros y Hy. apply H. now right.
Qed.

Lemma forIssuers_dead_end (rec : cert -> outcome (list (list cert)))
      (certificate i : cert) (before after : list cert) (e : thrown) :
  (forall j, In j before ->
             equals j certificate = true \/ exists sub, rec j = Return sub) ->
  equals i certificate = false ->
  rec i = Throw e ->
  forall paths,
    forIssuers rec certificate (before ++ i :: after) paths = Throw e.
Proof.
  intros Hbefore Hi He.
  induction before as [|j before IH]; intros paths; simpl.
  - now rewrite Hi, He.
  - destruct (Hbefore j (or_introl eq_refl)) as [Ej|(sub & Ej)].
    + rewrite Ej. apply IH. intros k Hk. apply Hbefore. now right.
    + destruct (equals j certificate); [|rewrite Ej; simpl];
        apply IH; intros k Hk; apply Hbefore; now right.
Qed.

(** X11.  The search has no guard against revisiting a certificate: when
    the leaf and another certificate are each the only issuer found for
    the other, every call recurses without bound (in the model the fuel
    runs out, however much is given). *)
Theorem issuer_cycle_never_completes (now : Date)
        (opts : VerifyCertificateChainOptions cert) (a b : cert) :
  let this := constructor now opts in
  certs opts <> [] ->
  nth_error (localCerts this) (length (localCerts this) - 1) = Some a ->
  findIssuer this a = Return [b] ->
  findIssuer this b = Return [a] ->
  equals b a = false -> equals a b = false ->
  forall fuel, verifyCertificateChain now fuel opts = OutOfFuel.
Proof.
  intros this Hc Hleaf Ha Hb Eba Eab fuel.
  assert (Hloop : buildPaths this fuel a = OutOfFuel /\
                  buildPaths this fuel b = OutOfFuel).
  { induction fuel as [|fuel [IHa IHb]]; [split; reflexivity|].
    split; cbn [buildPaths]; [rewrite Ha | rewrite Hb];
      cbn [bind forIssuers]; [rewrite Eba, IHb | rewrite Eab, IHa];
      reflexivity. }
  unfold verifyCertificateChain, verify. fold this.
  destruct (this_certs this) eqn:E; [contradiction|].
  unfold sort. rewrite Hleaf, (proj1 Hloop). reflexivity.
Qed.

(** X12.  A leaf that no pool certificate verifies and that does not pass
    as self-signed is a dead end: the call throws
    'No valid certificate path found'. *)
Theorem unverified_leaf_rejected (now : Date) (fuel : nat)
        (opts : VerifyCertificateChainOptions cert) (leafCert : cert) :
  let this := constructor now opts in
  certs opts <> [] ->
  nth_error (localCerts this) (length (localCerts this) - 1) = Some leafCert ->
  (subject leafCert <> issuer leafCert \/
   cert_verify leafCert None = Returns false) ->
  (forall p, In p (localCerts this) ->
             cert_verify leafCert (Some p) <> Returns true) ->
  verifyCertificateChain now (S fuel) opts =
  Throw (VerificationError "No valid certificate path found").
Proof.
  intros this Hc Hleaf Hself Hnone.
  assert (Hfind : findIssuer this leafCert = Return []).
  { assert (Hempty : filter (verifiedBy leafCert)
                            (possibleIssuers this leafCert) = []).
    { apply filter_none. intros p Hp. apply possibleIssuers_In in Hp.
      destruct (verifiedBy leafCert p) eqn:E; trivial.
      apply verifiedBy_true in E. now elim (Hnone p (proj1 Hp)). }
    unfold findIssuer. rewrite Hempty.
    destruct Hself as [Hne|Hfalse].
    - now rewrite (Buffer_equals_false Hne).
    - rewrite Hfalse. now destruct (Buffer_equals _ _). }
  unfold verifyCertificateChain, verify. fold this.
  destruct (this_certs this) eqn:E; [contradiction|].
  unfold sort. rewrite Hleaf. cbn [buildPaths]. rewrite Hfind. reflexivity.
Qed.

(** X13.  The search fails fast: when the search from one issuer of a
    certificate throws, and the issuers tried before it completed, the
    search from the certificate throws the same error, whatever the
    issuers after it would have led to. *)
Theorem dead_end_issuer_aborts_search (this : CertificateChainVerifier cert)
        (fuel : nat) (certificate i : cert) (before after : list cert)
        (e : thrown) :
  findIssuer this certificate = Return (before ++ i :: after) ->
  (forall j, In j before ->
             equals j certificate = true \/
             exists sub, buildPaths this fuel j = Return sub) ->
  equals i certificate = false ->
  buildPaths this fuel i = Throw e ->
  buildPaths this (S fuel) certificate = Throw e.
Proof.
  intros Hfind Hbefore Hi He. cbn [buildPaths]. rewrite Hfind. cbn [bind].
  destruct (before ++ i :: after) eqn:E; [now destruct before|].
  rewrite <- E. now apply forIssuers_dead_end.
Qed.

(** X14.  The three-certificate chain.  With one trusted self-signed root,
    an intermediate issued by it and a leaf issued by the intermediate
    (matched by name, the three names distinct, signatures verifying, the
    intermediate and the root CAs, all valid at the check date), the call
    returns the leaf, the intermediate and the root twice. *)
Theorem three_certificate_chain {Laws : x509Structural X}
        (now : Date) (fuel : nat) (root int leaf : cert)
        (date : option Date) :
  subject leaf <> subject int ->
  subject int <> subject root ->
  subject leaf <> subject root ->
  issuer leaf = subject int ->
  issuer int = subject root ->
  issuer root = subject root ->
  keyIdentifierOf leaf = None ->
  keyIdentifierOf int = None ->
  cert_verify leaf (Some int) = Returns true ->
  cert_verify int (Some root) = Returns true ->
  cert_verify root None = Returns true ->
  isCA int = true -> isCA root = true ->
  (forall c, In c [leaf; int; root] ->
             validForDate c (match date with Some d => d | None => now end)
             = true) ->
  verifyCertificateChain now (S (S (S fuel)))
    {| trustedCerts := [root]; certs := [int; leaf]; validAt := date |} =
  Return [leaf; int; root; root].
Proof.
  intros Hli Hir Hlr IL II IR KL KI VL VI VR CAi CAr Hvalid.
  assert (Hdistinct : forall a b, subject a <> subject b -> equals a b = false).
  { intros a b Hab. destruct (equals a b) eqn:E; trivial.
    now apply equals_subject in E. }
  assert (Hpool : dedupeCertificates ([root] ++ [int; leaf]) = [root; int; leaf]).
  { apply dedupeCertificates_distinct.
    repeat constructor; apply Hdistinct; congruence. }
  set (opts := {| trustedCerts := [root]; certs := [int; leaf];
                  validAt := date |}).
  set (this := constructor now opts).
  assert (Hlocal : localCerts this = [root; int; leaf]) by exact Hpool.
  assert (Hsame : forall a, Buffer_equals (subject a) (subject a) = true)
    by (intros a; now apply Buffer_equals_eq).
  assert (FL : findIssuer this leaf = Return [int]).
  { unfold findIssuer, possibleIssuers, isPossibleIssuer, verifiedBy.
    rewrite KL, Hlocal, IL. cbn [filter].
    rewrite (Buffer_equals_false Hli), Hsame.
    rewrite (Buffer_equals_false (not_eq_sym Hir)). cbn [filter].
    now rewrite VL. }
  assert (FI : findIssuer this int = Return [root]).
  { unfold findIssuer, possibleIssuers, isPossibleIssuer, verifiedBy.
    rewrite KI, Hlocal, II. cbn [filter].
    rewrite (Buffer_equals_false Hir), (Buffer_equals_false Hlr), Hsame.
    cbn [filter]. now rewrite VI. }
  assert (FR : findIssuer this root = Return [root]).
  { unfold findIssuer. now rewrite IR, Hsame, VR. }
  assert (Htrusted : containsTrusted this [int; root; root] = true).
  { apply existsb_exists. exists root. split; [simpl; auto|].
    apply includes_In. now left. }
  unfold verifyCertificateChain, verify. fold this.
  cbn [this_certs constructor certs opts this]. fold opts. fold this.
  unfold sort. rewrite Hlocal. cbn [length Nat.sub nth_error].
  cbn [buildPaths]. rewrite FL. cbn [bind forIssuers].
  rewrite (Hdistinct int leaf) by congruence.
  rewrite FI. cbn [bind forIssuers].
  rewrite (Hdistinct root int) by congruence.
  rewrite FR. cbn [bind forIssuers]. rewrite equals_refl.
  cbn [forIssuers bind map app filter]. rewrite Htrusted.
  cbn [fold_left bind]. unfold checkPath.
  cbn [length Nat.ltb Nat.leb forallb skipn Nat.sub nameChainingLoop
       nth_error].
  rewrite !Hvalid by (simpl; auto). rewrite CAi, CAr, IL, II, IR, !Hsame.
  reflexivity.
Qed.

End Search.

(** * The further properties on the example authority *)

Lemma pool_represents_input_witness :
  In root' [root; int; root']
  /\ exists x, In x (dedupeCertificates [root; int; root']) /\
               (x = root' \/ equals x root' = true).
Proof.
  assert (Hin : In root' [root; int; root']) by (simpl; auto).
  split; [exact Hin|].
  exact (proj2 (@pool_represents_input object certificate
                  [root; int; root'] root') Hin).
Defined.

Lemma trusted_copy_is_kept_witness :
  In root (dedupeCertificates ([root; otherRoot] ++ [root'; leaf]))
  /\ (exists t, In t [root; otherRoot] /\ equals t root = true)
  /\ In root [root; otherRoot].
Proof.
  assert (Hp : In root (dedupeCertificates ([root; otherRoot] ++ [root'; leaf])))
    by (vm_compute; auto).
  assert (Ht : exists t, In t [root; otherRoot] /\ equals t root = true)
    by (exists root; split; [now left | reflexivity]).
  split; [exact Hp|]. split; [exact Ht|].
  exact (@trusted_copy_is_kept object certificate fixture_structural
           [root; otherRoot] [root'; leaf] root Hp Ht).
Defined.

Lemma findIssuer_sound_witness :
  let this := constructor 0%Z (options [root] [int; leaf]) in
  findIssuer this leaf = Return [int]
  /\ In int [int]
  /\ ((int = leaf /\ subject leaf = issuer leaf /\
       cert_verify leaf None = Returns true) \/
      (In int (localCerts this) /\
       cert_verify leaf (Some int) = Returns true /\
       ((exists kid ski,
            keyIdentifierOf leaf = Some kid /\
            extSubjectKeyID int = Some ski /\ ski_keyIdentifier ski = kid) \/
        subject int = issuer leaf))).
Proof.
  intros this.
  assert (Hf : findIssuer this leaf = Return [int]) by reflexivity.
  assert (Hi : In int [int]) by now left.
  split; [exact Hf|]. split; [exact Hi|].
  exact (@findIssuer_sound object certificate this leaf [int] int Hf Hi).
Defined.

Lemma returned_chain_is_signed_witness :
  verifyCertificateChain 0%Z 4 (options [root] [int; leaf]) =
  Return [leaf; int; root; root]
  /\ exists i,
      (i = int \/ (int = leaf /\ equals i leaf = true)) /\
      (cert_verify leaf (Some i) = Returns true \/
       (i = leaf /\ subject leaf = issuer leaf /\
        cert_verify leaf None = Returns true)).
Proof.
  assert (H : verifyCertificateChain 0%Z 4 (options [root] [int; leaf]) =
              Return [leaf; int; root; root]) by reflexivity.
  split; [exact H|].
  exact (@returned_chain_is_signed object certificate 0%Z 4
           (options [root] [int; leaf]) [leaf; int; root; root] H
           0 leaf int eq_refl eq_refl).
Defined.

Lemma returned_chain_repeats_its_end_witness :
  verifyCertificateChain 0%Z 4 (options [root] [int; leaf]) =
  Return [leaf; int; root; root]
  /\ exists q r, [leaf; int; root; root] = q ++ [r; r].
Proof.
  assert (H : verifyCertificateChain 0%Z 4 (options [root] [int; leaf]) =
              Return [leaf; int; root; root]) by reflexivity.
  split; [exact H|].
  exact (@returned_chain_repeats_its_end object certificate 0%Z 4
           (options [root] [int; leaf]) [leaf; int; root; root] H).
Defined.

Lemma returned_chain_is_valid_witness :
  verifyCertificateChain 0%Z 4 (options [root] [int; leaf]) =
  Return [leaf; int; root; root]
  /\ 2 <= length [leaf; int; root; root]
  /\ Forall (fun c => validForDate c 1500%Z = true) [leaf; int; root; root]
  /\ Forall (fun c => isCA c = true) (tl [leaf; int; root; root])
  /\ forall i a b,
      nth_error [leaf; int; root; root] i = Some a ->
      nth_error [leaf; int; root; root] (S i) = Some b ->
      issuer a = subject b.
Proof.
  assert (H : verifyCertificateChain 0%Z 4 (options [root] [int; leaf]) =
              Return [leaf; int; root; root]) by reflexivity.
  split; [exact H|].
  exact (@returned_chain_is_valid object certificate 0%Z 4
           (options [root] [int; leaf]) [leaf; int; root; root] H).
Defined.

Lemma thrown_errors_witness :
  verifyCertificateChain 0%Z 1 (options [root] [malformed]) =
  Throw (CertificateException "Invalid public key")
  /\ ((exists c m,
          In c (dedupeCertificates ([root] ++ [malformed])) /\
          subject c = issuer c /\ cert_verify c None = Raises m /\
          CertificateException "Invalid public key" = CertificateException m)
      \/
      (exists m,
          CertificateException "Invalid public key" = VerificationError m /\
          In m ["No certificates provided";
                "No valid certificate path found";
                "No trusted certificate path found";
                "Certificate is not valid or expired at the specified date";
                "Intermediate certificate is not a CA";
                "Incorrect certificate name chaining"])).
Proof.
  assert (H : verifyCertificateChain 0%Z 1 (options [root] [malformed]) =
              Throw (CertificateException "Invalid public key"))
    by reflexivity.
  split; [exact H|].
  exact (@thrown_errors object certificate 0%Z 1
           (options [root] [malformed]) _ H).
Defined.

Lemma issuer_cycle_never_completes_witness :
  let opts := options [root] [crossB; crossA] in
  let this := constructor 0%Z opts in
  findIssuer this crossA = Return [crossB]
  /\ findIssuer this crossB = Return [crossA]
  /\ forall fuel, verifyCertificateChain 0%Z fuel opts = OutOfFuel.
Proof.
  intros opts this.
  assert (Ha : findIssuer this crossA = Return [crossB]) by reflexivity.
  assert (Hb : findIssuer this crossB = Return [crossA]) by reflexivity.
  split; [exact Ha|]. split; [exact Hb|].
  refine (@issuer_cycle_never_completes object certificate 0%Z opts
            crossA crossB _ eq_refl Ha Hb eq_refl eq_refl).
  discriminate.
Defined.

Lemma unverified_leaf_rejected_witness :
  let opts := options [root] [orphan] in
  subject orphan <> issuer orphan
  /\ (forall p, In p (localCerts (constructor 0%Z opts)) ->
                cert_verify orphan (Some p) <> Returns true)
  /\ verifyCertificateChain 0%Z 1 opts =
     Throw (VerificationError "No valid certificate path found").
Proof.
  intros opts.
  assert (Hne : subject orphan <> issuer orphan) by discriminate.
  assert (Hnone : forall p, In p (localCerts (constructor 0%Z opts)) ->
                            cert_verify orphan (Some p) <> Returns true).
  { intros p [<-|[<-|[]]]; discriminate. }
  split; [exact Hne|]. split; [exact Hnone|].
  refine (@unverified_leaf_rejected object certificate 0%Z 0 opts orphan
            _ eq_refl (or_introl Hne) Hnone).
  discriminate.
Defined.

(** The intermediate [deadInt] is tried first and has no issuer: the whole
    call fails although [int] leads to the trusted root, as the call
    without [deadInt] shows. *)
Lemma dead_end_issuer_aborts_search_witness :
  let this := constructor 0%Z (options [root] [deadInt; int; leaf]) in
  findIssuer this leaf = Return ([] ++ deadInt :: [int])
  /\ buildPaths this 3 deadInt =
     Throw (VerificationError "No valid certificate path found")
  /\ buildPaths this 4 leaf =
     Throw (VerificationError "No valid certificate path found")
  /\ verifyCertificateChain 0%Z 4 (options [root] [int; leaf]) =
     Return [leaf; int; root; root].
Proof.
  intros this.
  assert (Hf : findIssuer this leaf = Return ([] ++ deadInt :: [int]))
    by reflexivity.
  assert (Hd : buildPaths this 3 deadInt =
               Throw (VerificationError "No valid certificate path found"))
    by reflexivity.
  split; [exact Hf|]. split; [exact Hd|]. split; [|reflexivity].
  refine (@dead_end_issuer_aborts_search object certificate this 3 leaf
            deadInt [] [int] _ Hf _ eq_refl Hd).
  intros j [].
Defined.

Lemma three_certificate_chain_witness :
  verifyCertificateChain 0%Z 3 (options [root] [int; leaf]) =
  Return [leaf; int; root; root].
Proof.
  refine (@three_certificate_chain object certificate fixture_structural
            0%Z 0 root int leaf (Some 1500%Z)
            _ _ _ eq_refl eq_refl eq_refl eq_refl eq_refl
            eq_refl eq_refl eq_refl eq_refl eq_refl _);
    try discriminate.
  intros c [<-|[<-|[<-|[]]]]; reflexivity.
Defined.
